(** * Influence-benchmark: the rollout engine, embedded and verified

    Shallow embedding of
    - [influence_benchmark/environment/environment.py] (conversation state
      machine),
    - [influence_benchmark/environment_vectorized/environment_queue.py]
      (trajectory queue),
    - [targeted_llm_manipulation/backend/openai_backend.py] (rate-limited
      client),
    followed by the properties of each component.

    Conventions of the embedding.
    - Python [int] is [Z]; Python [float] is idealised as an exact rational
      [Q] (no rounding), compared with [Qeq]/[Qle].
    - A Python [str] is a [string] of bytes; [lower] and [strip] act on the
      ASCII range.
    - A [dict] whose iteration order is observable is an association list in
      insertion order; a [dict] that is only looked up is a [gmap].
    - A raised exception is the [Raise] branch of [result]. *)

From Stdlib Require Import ZArith QArith Qminmax Lia List Bool Ascii String.
From Stdlib Require Import Sorted Lqa.
From stdpp Require Import base option list gmap strings.

Local Open Scope string_scope.
Local Open Scope Z_scope.

(** ** Python runtime: exceptions and results *)

Module Py.

Inductive exn : Type :=
| ValueError (msg : string)
| KeyError (key : string)
| AssertionError (msg : string)
| IndexError
| ZeroDivisionError.

Inductive result (A : Type) : Type :=
| Ok (a : A)
| Raise (e : exn).
Arguments Ok {A} a.
Arguments Raise {A} e.

(** Sequencing: an exception skips the rest of the computation.  With the
    two instances, [x ← c; k] reads as [x = c] followed by [k]. *)
Definition bind {A B} (k : A -> result B) (r : result A) : result B :=
  match r with
  | Ok a => k a
  | Raise e => Raise e
  end.

#[export] Instance result_ret : MRet result := @Ok.
#[export] Instance result_bind : MBind result := @bind.

Definition is_ok {A} (r : result A) : bool :=
  match r with Ok _ => true | Raise _ => false end.

(** [for x in xs: s = body x s], stopping at the first exception. *)
Fixpoint for_each {A S} (body : A -> S -> result S) (xs : list A) (s : S)
  : result S :=
  match xs with
  | [] => Ok s
  | x :: xs' => s' ← body x s; for_each body xs' s'
  end.

(** [assert cond, msg]. *)
Definition assert (cond : bool) (msg : string) : result unit :=
  if cond then Ok tt else Raise (AssertionError msg).

(** [s.startswith(prefix)]. *)
Definition startswith (s prefix : string) : bool := String.prefix prefix s.

(** [s.split(sep)[0]] for a one-character separator: the part of [s] before
    the first [sep], or all of [s] when there is none. *)
Fixpoint split_head (sep : ascii) (s : string) : string :=
  match s with
  | EmptyString => EmptyString
  | String c s' => if Ascii.eqb c sep then EmptyString
                   else String c (split_head sep s')
  end.

(** [s.endswith(suffix)]. *)
Definition endswith (s suffix : string) : bool :=
  (String.length suffix <=? String.length s)%nat
  && String.eqb (substring (String.length s - String.length suffix)
                           (String.length suffix) s) suffix.

(** [needle in haystack]. *)
Fixpoint contains (needle haystack : string) : bool :=
  String.prefix needle haystack
  || match haystack with
     | EmptyString => false
     | String _ rest => contains needle rest
     end.

(** [s.lower()], on the ASCII letters. *)
Definition lower_char (c : ascii) : ascii :=
  let n := nat_of_ascii c in
  if ((65 <=? n) && (n <=? 90))%nat then ascii_of_nat (n + 32) else c.

Fixpoint lower (s : string) : string :=
  match s with
  | EmptyString => EmptyString
  | String c s' => String (lower_char c) (lower s')
  end.

(** [s.strip()]: the white space of [str.isspace] in the ASCII range. *)
Definition is_space (c : ascii) : bool :=
  let n := nat_of_ascii c in
  ((9 <=? n) && (n <=? 13) || (28 <=? n) && (n <=? 32))%nat.

Fixpoint lstrip (s : string) : string :=
  match s with
  | EmptyString => EmptyString
  | String c s' => if is_space c then lstrip s' else s
  end.

Fixpoint rstrip (s : string) : string :=
  match s with
  | EmptyString => EmptyString
  | String c s' =>
      match rstrip s' with
      | EmptyString => if is_space c then EmptyString
                       else String c EmptyString
      | r => String c r
      end
  end.

Definition strip (s : string) : string := rstrip (lstrip s).

(** [l[a:b]] for indices that are already non-negative. *)
Definition slice {A} (a b : nat) (l : list A) : list A :=
  firstn (b - a) (skipn a l).

End Py.

Import Py.

(** ** The trajectory queue ([environment_queue.py]) *)

Module TrajectoryQueue.

(** The entries of [env_args] the queue reads.  [env_fractions] is a dict
    that is iterated, so its insertion order is kept. *)
Record EnvArgs : Type := {
  env_fractions : list (string * Q);
  n_subenvs_to_sample_per_env : Z;
  n_trajs_to_sample_per_subenv : Z;
  subenv_choice_scheme : string;
}.

(** *** [_get_env_fraction_by_env_name] *)

(** The test of the inner loop:
    [env_name.startswith(prefix) or prefix == "*"]. *)
Definition rule_matches (env_name prefix : string) : bool :=
  startswith env_name prefix || String.eqb prefix "*".

(** The inner [for prefix, fraction in ...items()] with its [break]: the
    first matching rule writes [env_fractions[env_name]] and leaves the
    loop. *)
Fixpoint apply_first_rule (rules : list (string * Q)) (env_name : string)
    (env_fractions : gmap string Q) : gmap string Q :=
  match rules with
  | [] => env_fractions
  | (prefix, fraction) :: rules' =>
      if rule_matches env_name prefix
      then <[env_name := fraction]> env_fractions
      else apply_first_rule rules' env_name env_fractions
  end.

(** The message of the [ValueError]; the dict printed at its end is left
    out. *)
Definition no_prefix_msg (env_name : string) : string :=
  "Env " +:+ env_name +:+ " did not have any matching prefix".

(** The body of the outer loop.  In the source the [raise] is a statement of
    the outer loop body that follows the inner loop (the inner [for] has no
    [else]), so it runs whether or not the inner loop left by [break]. *)
Definition env_fraction_body (rules : list (string * Q)) (env_name : string)
    (env_fractions : gmap string Q) : result (gmap string Q) :=
  let env_fractions := apply_first_rule rules env_name env_fractions in
  Raise (ValueError (no_prefix_msg env_name)).

Definition _get_env_fraction_by_env_name (args : EnvArgs)
    (possible_env_names : list string) : result (gmap string Q) :=
  for_each (env_fraction_body (env_fractions args)) possible_env_names ∅.

(** *** [_get_n_subenvs_to_sample_per_iter_by_env] *)

(** [int(x)] on a float: truncation towards zero. *)
Definition int_of (x : Q) : Z := Z.quot (Qnum x) (Zpos (Qden x)).

(** [sum(d.values())] on a dict of ints. *)
Definition sum_values (d : gmap string Z) : Z :=
  map_fold (fun _ v acc => v + acc) 0 d.

(** [d[key]]. *)
Definition getitem {V} (d : gmap string V) (key : string) : result V :=
  match d !! key with
  | Some v => Ok v
  | None => Raise (KeyError key)
  end.

(** [a // b] on ints. *)
Definition floordiv (a b : Z) : result Z :=
  if b =? 0 then Raise ZeroDivisionError else Ok (a / b).

(** The dict comprehension
    [{env_prefix: int(total * frac) for env_prefix, frac in ...items()}]. *)
Definition tot_subenvs_by_prefix (args : EnvArgs) (total : Z)
  : gmap string Z :=
  fold_left (fun d '(env_prefix, frac) =>
               <[env_prefix := int_of (inject_Z total * frac)]> d)
            (env_fractions args) ∅.

(** The two nested loops that fill the [defaultdict(list)]. *)
Definition envs_by_prefix (args : EnvArgs) (training_envs : list string)
  : gmap string (list string) :=
  fold_left (fun d env_prefix =>
    fold_left (fun (d : gmap string (list string)) env_name =>
                 if startswith env_name env_prefix
                 then <[env_prefix := ((d !!! env_prefix) ++ [env_name])%list]> d
                 else d)
              training_envs d)
    (map fst (env_fractions args)) ∅.

(** The third loop: the allocation of each environment, before the two
    assertions. *)
Definition num_subenvs_per_iter_by_env (args : EnvArgs)
    (training_envs : list string) : result (gmap string Z) :=
  let total_subenvs_across_envs :=
    n_subenvs_to_sample_per_env args * Z.of_nat (length training_envs) in
  let tot := tot_subenvs_by_prefix args total_subenvs_across_envs in
  let by_prefix := envs_by_prefix args training_envs in
  for_each (fun env_name num =>
              let env_prefix := split_head "_" env_name in
              t ← getitem tot env_prefix;
              num_subenvs ← floordiv t
                (Z.of_nat (length (by_prefix !!! env_prefix)));
              Ok (<[env_name := num_subenvs]> num))
           training_envs ∅.

Definition _get_n_subenvs_to_sample_per_iter_by_env (args : EnvArgs)
    (training_envs : list string) : result (gmap string Z) :=
  let total_subenvs_across_envs :=
    n_subenvs_to_sample_per_env args * Z.of_nat (length training_envs) in
  let tot := tot_subenvs_by_prefix args total_subenvs_across_envs in
  num ← num_subenvs_per_iter_by_env args training_envs;
  _ ← assert (sum_values tot =? total_subenvs_across_envs) "";
  _ ← assert (sum_values num =? total_subenvs_across_envs)
             "Can remove this if too restrictive";
  Ok num.

(** *** The per-key queues: [put], [non_empty_queues], [get] *)

(** What [populate] enqueues: the sub-environment bundle, reduced to the
    fields that identify it. *)
Record Subenv : Type := {
  subenv_env_name : string;
  subenv_id : string;
  traj_id : Z;
}.

(** [queue_by_subenv]: a dict from sub-environment key to a FIFO queue, in
    insertion order of the keys.  A queue is the list of its pending items,
    oldest first. *)
Definition queues : Type := list (string * list Subenv).

(** [d[key]] on the ordered dict, [None] when the key is absent. *)
Fixpoint lookup_queue (d : queues) (key : string) : option (list Subenv) :=
  match d with
  | [] => None
  | (k, q) :: d' => if String.eqb k key then Some q else lookup_queue d' key
  end.

(** Replace the queue stored under [key]. *)
Fixpoint store_queue (d : queues) (key : string) (q : list Subenv) : queues :=
  match d with
  | [] => []
  | (k, q0) :: d' =>
      if String.eqb k key then (k, q) :: d'
      else (k, q0) :: store_queue d' key q
  end.

(** [self.queue_by_subenv[key].qsize()]. *)
Definition qsize (d : queues) (key : string) : nat :=
  match lookup_queue d key with
  | Some q => length q
  | None => 0
  end.

Definition get_subenv_key (env_name subenv_id : string) : string :=
  env_name +:+ "_" +:+ subenv_id.

Definition put (d : queues) (subenv_key : string) (subenv : Subenv)
  : queues :=
  let d := match lookup_queue d subenv_key with
           | Some _ => d
           | None => (d ++ [(subenv_key, [])])%list
           end in
  match lookup_queue d subenv_key with
  | Some q => store_queue d subenv_key (q ++ [subenv])%list
  | None => d
  end.

Definition num_trajectories (d : queues) : nat :=
  list_sum (map (fun kq => length (snd kq)) d).

(** [list.sort(key=size, reverse=True)]: a stable sort, larger sizes first;
    keys of equal size keep their relative order. *)
Fixpoint insert_desc (size : string -> nat) (x : string) (l : list string)
  : list string :=
  match l with
  | [] => [x]
  | y :: l' => if (size y <=? size x)%nat then x :: y :: l'
               else y :: insert_desc size x l'
  end.

Definition sort_desc (size : string -> nat) (l : list string) : list string :=
  fold_right (insert_desc size) [] l.

Definition non_empty_queues (d : queues) : list string :=
  let non_empty_subenvs :=
    filter (fun key => (0 < qsize d key)%nat) (map fst d) in
  sort_desc (qsize d) non_empty_subenvs.

(** What a call of [get] ends with.  [Blocked] stands for the blocking
    [Queue.get()] being called on a queue that holds nothing. *)
Inductive get_outcome : Type :=
| Exhausted
| Got (subenv : Subenv) (subenv_key : string)
| Blocked.

(** [get], run by one process alone.  [Queue.get()] returns the oldest item
    of a non-empty queue; the [queue.Empty] comparison of the source can
    only hold after a race with another process and has no sequential
    counterpart. *)
Definition get (d : queues) (subenv_key : option string)
  : get_outcome * queues :=
  let non_empty_queue_keys := non_empty_queues d in
  match non_empty_queue_keys with
  | [] => (Exhausted, d)
  | largest :: _ =>
      let subenv_key :=
        match subenv_key with
        | None => largest
        | Some k => if decide (k ∈ non_empty_queue_keys) then k else largest
        end in
      match lookup_queue d subenv_key with
      | Some (subenv :: rest) =>
          (Got subenv subenv_key, store_queue d subenv_key rest)
      | _ => (Blocked, d)
      end
  end.

(** *** [populate]: choosing the sub-environments of one iteration *)

(** [l[:n]], for any int [n]. *)
Definition slice_to {A} (n : Z) (l : list A) : list A :=
  if n <? 0 then firstn (Z.to_nat (Z.of_nat (length l) + n)) l
  else firstn (Z.to_nat n) l.

(** The [if/elif] chain on [subenv_choice_scheme].  [alloc] is
    [self.n_subenvs_to_sample_per_iter_by_env[env_name]]; [shuffle] is the
    permutation [random.shuffle] applies. *)
Definition choose_subenv_ids {A} (shuffle : list A -> list A)
    (subenv_choice_scheme : string) (iter_step alloc : Z) (eval : bool)
    (subenv_ids : list A) : result (list A) :=
  let total_num_subenvs := Z.of_nat (length subenv_ids) in
  let n_subenvs_to_sample_this_iter := if eval then 10 else alloc in
  if String.eqb subenv_choice_scheme "fixed" then
    Ok (slice_to n_subenvs_to_sample_this_iter subenv_ids)
  else if String.eqb subenv_choice_scheme "random" then
    Ok (slice_to n_subenvs_to_sample_this_iter (shuffle subenv_ids))
  else if String.eqb subenv_choice_scheme "sequential" then
    if total_num_subenvs =? 0 then Raise ZeroDivisionError
    else
      let curr_initial_idx_unwrapped := iter_step * alloc in
      let curr_initial_idx :=
        curr_initial_idx_unwrapped mod total_num_subenvs in
      let final_idx :=
        (curr_initial_idx + n_subenvs_to_sample_this_iter)
          mod total_num_subenvs in
      if final_idx >? curr_initial_idx then
        Ok (slice (Z.to_nat curr_initial_idx) (Z.to_nat final_idx)
                  subenv_ids)
      else
        Ok (skipn (Z.to_nat curr_initial_idx) subenv_ids
              ++ firstn (Z.to_nat final_idx) subenv_ids)%list
  else Raise (ValueError "Unknown subenv choice scheme").

(** [range(n)]. *)
Definition range (n : Z) : list Z := map Z.of_nat (seq 0 (Z.to_nat n)).

(** [populate]: [env_configs] lists, per environment and in dict order, the
    keys of its [histories]; [allocs] is
    [n_subenvs_to_sample_per_iter_by_env]. *)
Definition populate (shuffle : list string -> list string) (args : EnvArgs)
    (env_configs : list (string * list string)) (allocs : gmap string Z)
    (iter_step : Z) (eval : bool) (d : queues) : result queues :=
  let n_trajs := if eval then 1 else n_trajs_to_sample_per_subenv args in
  for_each (fun '(env_name, subenv_ids) d =>
    (* the source reads the allocation only where it is used: in training
       and in the sequential branch *)
    alloc ← (if eval && negb (String.eqb (subenv_choice_scheme args)
                                         "sequential")
             then Ok 0 else getitem allocs env_name);
    chosen ← choose_subenv_ids shuffle (subenv_choice_scheme args)
               iter_step alloc eval subenv_ids;
    Ok (fold_left (fun d id =>
          fold_left (fun d t =>
                       put d (get_subenv_key env_name id)
                           {| subenv_env_name := env_name;
                              subenv_id := id; traj_id := t |})
                    (range n_trajs) d)
        chosen d))
    env_configs d.

End TrajectoryQueue.

(** ** The conversation state machine ([environment.py]) *)

Module Environment.

(** A history is a Python list that several names may refer to, so a state
    holds the address of its history and the lists live in a store. *)
Abbreviation loc := nat.

Record Message : Type := {
  role : string;
  content : string;
}.

(** The value of one entry of [valid_transitions]:
    [{"next_state": name}]. *)
Record Transition : Type := {
  next_state : string;
}.

(** One entry of [state_config]; [sd_history] is
    [state_config[name].get("history", [])]. *)
Record StateDef : Type := {
  sd_history : list Message;
  sd_terminal : bool;
  sd_valid_transitions : gmap string Transition;
  sd_default_transition : string;
}.

(** The fields of [State] (state.py), in the order of the constructor call
    at the end of [create_state]. *)
Record State : Type := {
  name : string;
  history : loc;
  format_vars : gmap string string;
  turns : Z;
  valid_transitions : gmap string Transition;
  default_transition : string;
  terminal : bool;
}.

(** The attributes of an [Environment] that are set once. *)
Record Env : Type := {
  max_turns : Z;
  env_format_vars : gmap string string;
  state_config : gmap string StateDef;
}.

(** What the methods mutate: the lists in memory, [self.visited_states], and
    the number of draws taken from the random generator. *)
Record World : Type := {
  heap : gmap loc (list Message);
  visited_states : gset string;
  draws : nat;
}.

Definition set_heap (h : gmap loc (list Message)) (w : World) : World :=
  {| heap := h; visited_states := visited_states w; draws := draws w |}.

(** [copy.deepcopy(l)] of a history: a new list with the same messages. *)
Definition deepcopy (l : loc) (w : World) : loc * World :=
  let l' := fresh (dom (heap w)) in
  (l', set_heap (<[l' := default [] (heap w !! l)]> (heap w)) w).

(** [l.append(m)], in place. *)
Definition append (l : loc) (m : Message) (w : World) : World :=
  set_heap (alter (fun msgs => msgs ++ [m])%list l (heap w)) w.

(** Modelled from the spec: [State.copy] of state.py, which is not part of
    the sources at hand.  The spec has a self-loop produce a copy of the
    current state, and every derived state's history be a deep copy, never an
    alias, of its predecessor's: all fields are kept and the history is
    copied to a new list. *)
Definition State_copy (s : State) (w : World) : State * World :=
  let '(h, w) := deepcopy (history s) w in
  ({| name := name s; history := h; format_vars := format_vars s;
      turns := turns s; valid_transitions := valid_transitions s;
      default_transition := default_transition s;
      terminal := terminal s |}, w).

Definition set_turns (t : Z) (s : State) : State :=
  {| name := name s; history := history s; format_vars := format_vars s;
     turns := t; valid_transitions := valid_transitions s;
     default_transition := default_transition s; terminal := terminal s |}.

Section Methods.

(** [count_format_fields] of utils.py and [str.format_map], which may raise;
    [choice k] tells whether the [k]-th call of [random.choice] on a
    two-element list returns the second element. *)
Variable count_format_fields : string -> nat.
Variable format_map : string -> gmap string string -> result string.
Variable choice : nat -> bool.

(** The two statements that rebuild [format_vars] for one message. *)
Definition message_format_vars (self : Env) (w : World)
  : result (gmap string string) * World :=
  let format_vars := env_format_vars self in
  match env_format_vars self !! "char_action1" with
  | None => (Ok format_vars, w)
  | Some action1 =>
      match format_vars !! "char_action2" with
      | None => (Raise (KeyError "char_action2"), w)
      | Some action2 =>
          (Ok (<["char_action" :=
                   if choice (draws w) then action2 else action1]>
                 format_vars),
           {| heap := heap w; visited_states := visited_states w;
              draws := S (draws w) |})
      end
  end.

(** The [for message in ...] loop of [create_state]; it returns the
    [format_vars] left by the last message. *)
Fixpoint append_scripted (self : Env) (state_name : string)
    (conversation_history : loc) (messages : list Message)
    (format_vars : gmap string string) (w : World)
  : result (gmap string string) * World :=
  match messages with
  | [] => (Ok format_vars, w)
  | message :: messages' =>
      if String.eqb state_name "initial_state"
         && negb (count_format_fields (content message) =? 0)%nat
      then (Raise (AssertionError
                     "Initial state should already be formatted"), w)
      else
        match message_format_vars self w with
        | (Raise e, w) => (Raise e, w)
        | (Ok format_vars, w) =>
            match format_map (content message) format_vars with
            | Raise e => (Raise e, w)
            | Ok text =>
                let w := append conversation_history
                           {| role := role message;
                              content := strip text |} w in
                append_scripted self state_name conversation_history
                                messages' format_vars w
            end
        end
  end.

Definition create_state (self : Env) (state_name : string) (turns : Z)
    (history : loc) (w : World) : result State * World :=
  let conversation_history := history in
  match state_config self !! state_name with
  | None => (Raise (KeyError state_name), w)
  | Some def =>
      match append_scripted self state_name conversation_history
                            (sd_history def) (env_format_vars self) w with
      | (Raise e, w) => (Raise e, w)
      | (Ok format_vars, w) =>
          let w := {| heap := heap w;
                      visited_states := {[state_name]} ∪ visited_states w;
                      draws := draws w |} in
          (Ok {| name := state_name; history := conversation_history;
                 format_vars := format_vars; turns := turns;
                 valid_transitions := sd_valid_transitions def;
                 default_transition := sd_default_transition def;
                 terminal := sd_terminal def |}, w)
      end
  end.

(** The first statement of [post_transition_processing]: the label that is
    looked up. *)
Definition resolve_transition (state : State) (transition : string)
  : string :=
  if bool_decide (is_Some (valid_transitions state !! transition))
  then transition else default_transition state.

Definition post_transition_processing (self : Env) (state : State)
    (transition action : string) (w : World) : result State * World :=
  let transition := resolve_transition state transition in
  match valid_transitions state !! transition with
  | None => (Raise (KeyError transition), w)
  | Some target =>
      if String.eqb (next_state target) (name state) then
        let '(next, w) := State_copy state w in
        (Ok (set_turns (turns next + 1) next), w)
      else
        let '(h, w) := deepcopy (history state) w in
        create_state self (next_state target) (turns state + 1) h w
  end.

Definition is_terminal (self : Env) (state : State) : bool :=
  (max_turns self <=? turns state) || terminal state.

(** [__init__], from [self.visited_states = set()] on: the current state is
    created on the list [initial_messages] itself. *)
Definition __init__ (self : Env) (initial_messages : loc) (w : World)
  : result State * World :=
  create_state self "initial_state" 0 initial_messages
    {| heap := heap w; visited_states := ∅; draws := draws w |}.

End Methods.

(** The dict [get_observation] builds from the current state. *)
Record Observation : Type := {
  obs_history : loc;
  obs_format_vars : gmap string string;
  obs_turns : Z;
}.

Definition get_observation (self : Env) (current_state : State)
  : Observation :=
  {| obs_history := history current_state;
     obs_format_vars := env_format_vars self;
     obs_turns := turns current_state |}.

End Environment.

(** ** The rate-limited client ([openai_backend.py]) *)

Module OpenAIBackend.

Local Open Scope Q_scope.

(** The attributes of the backend the rate limiter and the scoring read.
    Capacities, buckets and clock readings are numbers of the same kind. *)
Record Backend : Type := {
  max_requests_per_minute : Q;
  max_tokens_per_minute : Q;
  request_bucket : Q;
  token_bucket : Q;
  last_refill_time_token : Q;
  last_refill_time_request : Q;
  chain_of_thought_final_string : string;
}.

(** The state [__init__] leaves, when the event loop's clock reads [now]. *)
Definition init (max_requests_per_minute max_tokens_per_minute now : Q)
    (final_string : string) : Backend :=
  {| max_requests_per_minute := max_requests_per_minute;
     max_tokens_per_minute := max_tokens_per_minute;
     request_bucket := max_requests_per_minute;
     token_bucket := max_tokens_per_minute;
     last_refill_time_token := now;
     last_refill_time_request := now;
     chain_of_thought_final_string := final_string |}.

(** *** The two buckets.  [now] is the reading of
    [asyncio.get_event_loop().time()] inside the call. *)

Definition _refill_request_bucket (now : Q) (self : Backend) : Backend :=
  let time_passed := now - last_refill_time_request self in
  {| max_requests_per_minute := max_requests_per_minute self;
     max_tokens_per_minute := max_tokens_per_minute self;
     request_bucket :=
       Qmin (max_requests_per_minute self)
            (request_bucket self
             + time_passed * (max_requests_per_minute self / 60));
     token_bucket := token_bucket self;
     last_refill_time_token := last_refill_time_token self;
     last_refill_time_request := now;
     chain_of_thought_final_string := chain_of_thought_final_string self |}.

Definition _refill_token_bucket (now : Q) (self : Backend) : Backend :=
  let time_passed := now - last_refill_time_token self in
  {| max_requests_per_minute := max_requests_per_minute self;
     max_tokens_per_minute := max_tokens_per_minute self;
     request_bucket := request_bucket self;
     token_bucket :=
       Qmin (max_tokens_per_minute self)
            (token_bucket self
             + time_passed * (max_tokens_per_minute self / 60));
     last_refill_time_token := now;
     last_refill_time_request := last_refill_time_request self;
     chain_of_thought_final_string := chain_of_thought_final_string self |}.

Definition take_requests (requests : Q) (self : Backend) : Backend :=
  {| max_requests_per_minute := max_requests_per_minute self;
     max_tokens_per_minute := max_tokens_per_minute self;
     request_bucket := request_bucket self - requests;
     token_bucket := token_bucket self;
     last_refill_time_token := last_refill_time_token self;
     last_refill_time_request := last_refill_time_request self;
     chain_of_thought_final_string := chain_of_thought_final_string self |}.

Definition take_tokens (tokens : Q) (self : Backend) : Backend :=
  {| max_requests_per_minute := max_requests_per_minute self;
     max_tokens_per_minute := max_tokens_per_minute self;
     request_bucket := request_bucket self;
     token_bucket := token_bucket self - tokens;
     last_refill_time_token := last_refill_time_token self;
     last_refill_time_request := last_refill_time_request self;
     chain_of_thought_final_string := chain_of_thought_final_string self |}.

(** The [while True] loop of [_acquire_requests].  Each element of [clock]
    is the time read by one iteration; the iterations are separated by the
    0.1 s sleep.  The result says whether the loop returned within these
    iterations. *)
Fixpoint _acquire_requests (clock : list Q) (requests : Q) (self : Backend)
  : bool * Backend :=
  match clock with
  | [] => (false, self)
  | now :: clock' =>
      let self := _refill_request_bucket now self in
      if Qle_bool requests (request_bucket self)
      then (true, take_requests requests self)
      else _acquire_requests clock' requests self
  end.

Fixpoint _acquire_tokens (clock : list Q) (tokens : Q) (self : Backend)
  : bool * Backend :=
  match clock with
  | [] => (false, self)
  | now :: clock' =>
      let self := _refill_token_bucket now self in
      if Qle_bool tokens (token_bucket self)
      then (true, take_tokens tokens self)
      else _acquire_tokens clock' tokens self
  end.

(** *** Token probabilities *)

(** The parts of a [ChatCompletion] that are read:
    [response.choices[0].message.content] and
    [response.choices[0].logprobs.content]. *)
Record TopLogprob : Type := {
  top_token : string;
  logprob : Q;
}.

Record TokenLogprob : Type := {
  token : string;
  top_logprobs : list TopLogprob;
}.

Record ChatCompletion : Type := {
  message_content : string;
  logprobs_content : list TokenLogprob;
}.

(** [l[i]] for an index that is not negative. *)
Definition item {A} (l : list A) (i : nat) : result A :=
  match l !! i with
  | Some x => Ok x
  | None => Raise IndexError
  end.

(** [d[k]] on a [defaultdict(float)], and [k in d ? d[k] : 0]. *)
Definition prob_of (d : gmap string Q) (k : string) : Q :=
  default 0 (d !! k).

(** The loop that looks for the final string: [prefix] grows by one token
    per step, and the answer is the token after the first prefix that ends
    with the final string.  [-1] when no prefix does. *)
Fixpoint find_final_answer_index (final_string : string)
    (response_tokens : list string) (prefix : string) (index : Z) : Z :=
  match response_tokens with
  | [] => (-1)%Z
  | tok :: rest =>
      let prefix := prefix +:+ tok in
      if endswith prefix final_string then (index + 1)%Z
      else find_final_answer_index final_string rest prefix (index + 1)%Z
  end.

(** The first part of [get_token_probs_and_chain_of_thought], up to the
    bounds test: either an early [return {}, chain_of_thought], or the
    values of [final_answer_index] and [chain_of_thought] that reach the
    bounds test. *)
Definition locate_final_answer (self : Backend) (response : ChatCompletion)
    (use_chain_of_thought : bool)
  : (gmap string Q * string) + (Z * string) :=
  if use_chain_of_thought then
    let chain_of_thought := message_content response in
    if negb (contains (chain_of_thought_final_string self) chain_of_thought)
    then inl (∅, chain_of_thought)
    else
      let response_tokens := map token (logprobs_content response) in
      let final_answer_index :=
        find_final_answer_index (chain_of_thought_final_string self)
                                response_tokens "" 0 in
      if (final_answer_index =? -1)%Z then inl (∅, chain_of_thought)
      else inr (final_answer_index, chain_of_thought)
  else inr (0%Z, "").

Section Scoring.

(** [math.exp]. *)
Variable exp : Q -> Q.

(** [for i in range(5): tokens[...] += math.exp(...)]. *)
Definition add_top_logprob (top_logprobs : list TopLogprob) (i : nat)
    (tokens : gmap string Q) : result (gmap string Q) :=
  entry ← item top_logprobs i;
  let key := strip (lower (top_token entry)) in
  Ok (<[key := prob_of tokens key + exp (logprob entry)]> tokens).

Definition top_five_probs (top_logprobs : list TopLogprob)
  : result (gmap string Q) :=
  for_each (add_top_logprob top_logprobs) (seq 0 5) ∅.

Definition get_token_probs_and_chain_of_thought (self : Backend)
    (response : ChatCompletion) (use_chain_of_thought : bool)
  : result (gmap string Q * string) :=
  let num_response_tokens := Z.of_nat (length (logprobs_content response)) in
  match locate_final_answer self response use_chain_of_thought with
  | inl early => Ok early
  | inr (final_answer_index, chain_of_thought) =>
      if (num_response_tokens <=? final_answer_index)%Z
      then Ok (∅, chain_of_thought)
      else
        answer ← item (logprobs_content response)
                      (Z.to_nat final_answer_index);
        tokens ← top_five_probs (top_logprobs answer);
        Ok (tokens, chain_of_thought)
  end.

(** [sum(d.values())] on a dict of floats. *)
Definition sum_values (d : gmap string Q) : Q :=
  map_fold (fun _ v acc => v + acc) 0 d.

(** The dict comprehension over [valid_tokens]. *)
Definition valid_probs (token_probs : gmap string Q)
    (valid_tokens : list string) : gmap string Q :=
  fold_left (fun d k => <[k := prob_of token_probs k]> d) valid_tokens ∅.

(** The statements that follow the call of
    [get_token_probs_and_chain_of_thought]. *)
Definition normalize (token_probs : gmap string Q)
    (valid_tokens : list string) : gmap string Q :=
  let valid_probs := valid_probs token_probs valid_tokens in
  let total_prob := sum_values valid_probs in
  if Qlt_le_dec 0 total_prob
  then (fun v => v / total_prob) <$> valid_probs
  else valid_probs.

(** [_async_get_next_token_probs_normalized] from the point where the
    awaited completion [response] has arrived. *)
Definition _async_get_next_token_probs_normalized (self : Backend)
    (response : ChatCompletion) (valid_tokens : list string)
    (use_chain_of_thought : bool) : result (gmap string Q * string) :=
  '(token_probs, chain_of_thought) ←
    get_token_probs_and_chain_of_thought self response
                                         use_chain_of_thought;
  Ok (normalize token_probs valid_tokens, chain_of_thought).

End Scoring.

(** *** Messages and retries *)

(** The three branches of the loop of [preprocess_messages];
    [str(message["content"])] of a string is the string. *)
Definition preprocess_message (message : Environment.Message)
  : Environment.Message :=
  if String.eqb (Environment.role message) "system" then
    {| Environment.role := "system";
       Environment.content := Environment.content message |}
  else if String.eqb (Environment.role message) "agent" then
    {| Environment.role := "assistant";
       Environment.content := Environment.content message |}
  else
    {| Environment.role := "user";
       Environment.content := Environment.content message |}.

Definition preprocess_messages (messages : list Environment.Message)
  : list Environment.Message :=
  fold_left (fun messages_out message =>
               (messages_out ++ [preprocess_message message])%list)
            messages [].

(** The class attribute [max_retries] that [retry_decorator] reads
    ([OpenAIBackend.max_retries]); the instance attribute of the same name,
    set to 6 by [__init__], is not read by it. *)
Definition max_retries : nat := 5.

(** What a call wrapped by [tenacity.retry] ends with: the value of an
    attempt, or [RetryError] around the exception of the last attempt. *)
Inductive retried (A : Type) : Type :=
| Returned (a : A)
| RetryError (last_attempt : exn).
Arguments Returned {A} a.
Arguments RetryError {A} last_attempt.

(** [tenacity.retry(stop=stop_after_attempt(n))(func)(...)]: [func] is
    called again after every exception until an attempt returns or the
    number of attempts made has reached [n].  [attempt k] is what the call
    number [k] of [func] does, counted from [first]. *)
Fixpoint retry {A} (n : nat) (attempt : nat -> result A) (first : nat)
  : retried A :=
  match attempt first with
  | Ok a => Returned a
  | Raise e =>
      match n with
      | O => RetryError e
      | S n' =>
          match n' with
          | O => RetryError e
          | S _ => retry n' attempt (S first)
          end
      end
  end.

Definition retry_decorator {A} (func : nat -> result A) : retried A :=
  retry max_retries func 0.

End OpenAIBackend.

(** * Properties *)

(** ** Properties of the trajectory queue *)

Module TrajectoryQueueSpec.
Import TrajectoryQueue.

(** *** Loops in the error monad *)

Lemma for_each_app {A S} (body : A -> S -> result S) xs ys s :
  for_each body (xs ++ ys) s = (s' ← for_each body xs s; for_each body ys s').
Proof.
  revert s. induction xs as [|x xs IH]; intros s; simpl; [done|].
  destruct (body x s) as [s'|e]; simpl; [apply IH | done].
Qed.

(** *** [_get_env_fraction_by_env_name] *)

(** The inner loop does what the docstring promises: with a matching rule,
    the name is bound to the fraction of the first such rule. *)
Lemma apply_first_rule_match rules env_name ef pre prefix fraction post :
  rules = (pre ++ (prefix, fraction) :: post)%list ->
  Forall (fun r => rule_matches env_name r.1 = false) pre ->
  rule_matches env_name prefix = true ->
  apply_first_rule rules env_name ef !! env_name = Some fraction.
Proof.
  intros -> Hpre Hm. induction Hpre as [|[p f] pre Hp _ IH]; simpl.
  - rewrite Hm. apply lookup_insert_eq.
  - simpl in Hp. rewrite Hp. apply IH.
Qed.

(** The outer loop nevertheless raises at the first name it is given, with
    any rules. *)
Lemma get_env_fraction_raises args env_name names :
  _get_env_fraction_by_env_name args (env_name :: names)
  = Raise (ValueError (no_prefix_msg env_name)).
Proof. reflexivity. Qed.

Lemma get_env_fraction_no_names args :
  _get_env_fraction_by_env_name args [] = Ok ∅.
Proof. reflexivity. Qed.

Definition wildcard_args : EnvArgs :=
  {| env_fractions := [("*", 1%Q)];
     n_subenvs_to_sample_per_env := 4;
     n_trajs_to_sample_per_subenv := 2;
     subenv_choice_scheme := "sequential" |}.

(** C1.  The name ["smoking"] matches the wildcard rule [("*", 1.0)], so the
    claim has [_get_env_fraction_by_env_name] bind it to [1.0] and return;
    the code raises the [ValueError] meant for a name without a matching
    rule. *)
Theorem C1_raises_for_matching_name :
  rule_matches "smoking" "*" = true
  /\ apply_first_rule (env_fractions wildcard_args) "smoking" ∅ !! "smoking"
     = Some 1%Q
  /\ _get_env_fraction_by_env_name wildcard_args ["smoking"]
     = Raise (ValueError "Env smoking did not have any matching prefix").
Proof. repeat split; reflexivity. Qed.

(** *** [_get_n_subenvs_to_sample_per_iter_by_env] *)

Definition two_prefix_args : EnvArgs :=
  {| env_fractions := [("weak", 1 # 2); ("normal", 1 # 2)];
     n_subenvs_to_sample_per_env := 4;
     n_trajs_to_sample_per_subenv := 2;
     subenv_choice_scheme := "sequential" |}.

(** Two prefixes at one half each, three environments: 12 slots, 6 per
    prefix, and the allocations 6 + 3 + 3 pass both assertions. *)
Example allocation_passes :
  _get_n_subenvs_to_sample_per_iter_by_env two_prefix_args
    ["weak_smoking"; "normal_smoking"; "normal_drinking"]
  = Ok (<["normal_drinking" := 3]> (<["normal_smoking" := 3]>
         (<["weak_smoking" := 6]> ∅))).
Proof. vm_compute. reflexivity. Qed.

(** The same fractions with one environment and three slots: each prefix is
    truncated to 1, and the first assertion stops the construction. *)
Example allocation_truncation_asserts :
  _get_n_subenvs_to_sample_per_iter_by_env
    {| env_fractions := [("weak", 1 # 2); ("normal", 1 # 2)];
       n_subenvs_to_sample_per_env := 3;
       n_trajs_to_sample_per_subenv := 2;
       subenv_choice_scheme := "sequential" |}
    ["weak_smoking"]
  = Raise (AssertionError "").
Proof. vm_compute. reflexivity. Qed.

(** [sum(env_fractions.values())]. *)
Definition fractions_sum (args : EnvArgs) : Q :=
  fold_right Qplus 0%Q (map snd (env_fractions args)).

(** C3.  The table [{"*": 1.0}] sums to 1 and its only rule is the wildcard,
    which [_get_env_fraction_by_env_name] matches with every name.  For the
    one training environment ["smoking"] and 4 sub-environments per
    environment the claim has the allocation [{"smoking": 4}], whose sum is
    [4 * 1].  The code keeps the 4 slots under the key ["*"], lists no
    environment under it (["smoking"] does not start with ["*"]), and then
    looks the slots up under the name head ["smoking"]: the call ends in
    [KeyError "smoking"], which is neither an allocation nor a failed
    assertion. *)
Theorem C3_wildcard_table_raises :
  Qeq_bool (fractions_sum wildcard_args) 1%Q = true
  /\ rule_matches "smoking" "*" = true
  /\ tot_subenvs_by_prefix wildcard_args (4 * 1) = {[ "*" := 4 ]}
  /\ envs_by_prefix wildcard_args ["smoking"] = ∅
  /\ split_head "_" "smoking" = "smoking"
  /\ num_subenvs_per_iter_by_env wildcard_args ["smoking"]
     = Raise (KeyError "smoking")
  /\ _get_n_subenvs_to_sample_per_iter_by_env wildcard_args ["smoking"]
     = Raise (KeyError "smoking").
Proof. repeat split; vm_compute; reflexivity. Qed.

(** *** The sequential choice of [populate] *)

Section Sequential.
Context {A : Type}.
Variable shuffle : list A -> list A.

(** What it means for the sequential scheme to pick the circular window:
    the choice has [n] ids, the [i]-th of them is the id at position
    [(cursor + i) mod total], and a window that runs over the end of the
    list is the tail from the cursor followed by the head of the list. *)
Definition picks_circular_window (iter_step alloc : Z) (eval : bool)
    (subenv_ids : list A) : Prop :=
  let n := Z.to_nat (if eval then 10 else alloc) in
  let total := length subenv_ids in
  let cursor := Z.to_nat ((iter_step * alloc) mod Z.of_nat total) in
  exists chosen,
    choose_subenv_ids shuffle "sequential" iter_step alloc eval subenv_ids
    = Ok chosen
    /\ length chosen = n
    /\ (forall i, (i < n)%nat ->
                  chosen !! i = subenv_ids !! ((cursor + i) mod total)%nat)
    /\ ((total < cursor + n)%nat ->
        chosen = (drop cursor subenv_ids
                    ++ take (cursor + n - total) subenv_ids)%list).

(** X30.  When the number [n] of sub-environments to choose (the
    allocation in training, 10 in evaluation) satisfies
    [1 <= n <= total_subenv_count], the sequential scheme chooses exactly the
    [n] ids of the circular window that starts at
    [(iter_step * allocation) mod total_subenv_count], and a window that
    crosses the end of the list is the tail slice from the cursor followed
    by the head slice. *)
Theorem sequential_window_in_range (iter_step alloc : Z) (eval : bool)
    (subenv_ids : list A) :
  1 <= (if eval then 10 else alloc) <= Z.of_nat (length subenv_ids) ->
  picks_circular_window iter_step alloc eval subenv_ids.
Proof.
  intros Hn. unfold picks_circular_window, choose_subenv_ids. simpl.
  set (nz := if eval then 10 else alloc) in *.
  set (t := length subenv_ids).
  destruct (Z.eqb_spec (Z.of_nat t) 0) as [Ht0|Ht0]; [lia|].
  pose proof (Z.mod_pos_bound (iter_step * alloc) (Z.of_nat t) ltac:(lia))
    as Hc.
  set (cz := (iter_step * alloc) mod Z.of_nat t) in *.
  destruct (Z_lt_le_dec (cz + nz) (Z.of_nat t)) as [Hlt|Hge].
  - (* the window ends before the end of the list *)
    rewrite (Z.mod_small (cz + nz)) by lia.
    destruct (Z.gtb_spec (cz + nz) cz) as [_|?]; [|lia].
    eexists; split; [reflexivity|]. unfold slice.
    replace (Z.to_nat (cz + nz) - Z.to_nat cz)%nat with (Z.to_nat nz)
      by lia.
    split; [|split].
    + rewrite length_take, length_drop. fold t. lia.
    + intros i Hi. rewrite lookup_take_lt, lookup_drop by done.
      f_equal. symmetry. apply Nat.mod_small. lia.
    + lia.
  - (* the window reaches or crosses the end of the list *)
    assert ((cz + nz) mod Z.of_nat t = cz + nz - Z.of_nat t) as ->.
    { symmetry. apply (Z.mod_unique _ _ 1); lia. }
    destruct (Z.gtb_spec (cz + nz - Z.of_nat t) cz) as [?|_]; [lia|].
    eexists; split; [reflexivity|].
    replace (Z.to_nat (cz + nz - Z.of_nat t))
      with (Z.to_nat cz + Z.to_nat nz - t)%nat by lia.
    split; [|split].
    + rewrite length_app, length_take, length_drop. fold t. lia.
    + intros i Hi. destruct (decide (Z.to_nat cz + i < t)%nat) as [Hi'|Hi'].
      * rewrite lookup_app_l by (rewrite length_drop; fold t; lia).
        rewrite lookup_drop. f_equal. symmetry. apply Nat.mod_small. lia.
      * rewrite lookup_app_r by (rewrite length_drop; fold t; lia).
        rewrite length_drop. fold t.
        rewrite lookup_take_lt by lia. f_equal.
        apply (Nat.mod_unique _ _ 1); lia.
    + done.
Qed.

End Sequential.

Lemma sequential_window_in_range_witness :
  picks_circular_window id 3 3 false [0; 1; 2; 3; 4; 5; 6].
Proof. apply sequential_window_in_range. simpl. lia. Defined.

(** C6.  An evaluation pass over seven sub-environments asks for 10 of
    them.  The sequential scheme computes the end index [(0 + 10) mod 7 = 3]
    and chooses the three ids [0; 1; 2]: not the window of the claim, and
    not the wrap-around its own comment announces.  On the same input the
    schemes ["fixed"] and ["random"] choose all seven ids. *)
Theorem C6_window_longer_than_list :
  choose_subenv_ids id "sequential" 0 2 true [0; 1; 2; 3; 4; 5; 6]
  = Ok [0; 1; 2]
  /\ ~ picks_circular_window id 0 2 true [0; 1; 2; 3; 4; 5; 6]
  /\ choose_subenv_ids id "fixed" 0 2 true [0; 1; 2; 3; 4; 5; 6]
     = Ok [0; 1; 2; 3; 4; 5; 6]
  /\ choose_subenv_ids (@rev Z) "random" 0 2 true [0; 1; 2; 3; 4; 5; 6]
     = Ok [6; 5; 4; 3; 2; 1; 0].
Proof.
  split; [reflexivity|]. split; [|split; reflexivity].
  intros (chosen & Hrun & Hlen & _). vm_compute in Hrun.
  injection Hrun as <-. simpl in Hlen. discriminate.
Qed.

(** The other end of the same test: an allocation of 0 gives the end index
    equal to the cursor, and [final_idx > curr_initial_idx] fails, so the code
    takes the wrap-around branch and chooses every id, where ["fixed"]
    chooses none. *)
Example sequential_window_of_zero :
  choose_subenv_ids id "sequential" 1 0 false [0; 1; 2] = Ok [0; 1; 2]
  /\ choose_subenv_ids id "fixed" 1 0 false [0; 1; 2] = Ok [].
Proof. split; reflexivity. Qed.

(** *** [non_empty_queues] and [get] *)

Lemma lookup_queue_key d key q :
  lookup_queue d key = Some q -> key ∈ map fst d.
Proof.
  induction d as [|[k q0] d IH]; simpl; [done|].
  destruct (String.eqb_spec k key) as [->|_]; intros H.
  - apply elem_of_cons. by left.
  - apply elem_of_cons. right. by apply IH.
Qed.

Lemma qsize_pos_lookup d key :
  (0 < qsize d key)%nat ->
  exists subenv rest, lookup_queue d key = Some (subenv :: rest).
Proof.
  unfold qsize. destruct (lookup_queue d key) as [[|subenv rest]|];
    simpl; intros H; [lia| eauto | lia].
Qed.

Section Sorting.
Variable size : string -> nat.

Lemma elem_of_insert_desc x y l :
  x ∈ insert_desc size y l <-> x = y \/ x ∈ l.
Proof.
  induction l as [|z l IH]; simpl.
  - rewrite list_elem_of_singleton. split; [by left|].
    intros [?|H]; [done|]. by apply elem_of_nil in H.
  - destruct (size z <=? size y)%nat.
    + by rewrite elem_of_cons.
    + rewrite !elem_of_cons, IH. tauto.
Qed.

Lemma elem_of_sort_desc x l : x ∈ sort_desc size l <-> x ∈ l.
Proof.
  induction l as [|y l IH]; simpl; [done|].
  by rewrite elem_of_insert_desc, elem_of_cons, IH.
Qed.

(** The first key of the sorted list has the largest size. *)
Lemma sort_desc_head_largest l k rest :
  sort_desc size l = k :: rest ->
  forall x, x ∈ l -> (size x <= size k)%nat.
Proof.
  revert k rest. induction l as [|y l IH]; intros k rest Hs x Hx.
  - by apply elem_of_nil in Hx.
  - simpl in Hs. destruct (sort_desc size l) as [|h t] eqn:Hl.
    + simpl in Hs. injection Hs as <- <-.
      apply elem_of_cons in Hx as [->|Hx]; [done|].
      apply elem_of_sort_desc in Hx. rewrite Hl in Hx.
      by apply elem_of_nil in Hx.
    + simpl in Hs. destruct (Nat.leb_spec (size h) (size y)).
      * injection Hs as <- <-.
        apply elem_of_cons in Hx as [->|Hx]; [done|].
        pose proof (IH h t eq_refl x Hx). lia.
      * injection Hs as <- <-.
        apply elem_of_cons in Hx as [->|Hx]; [lia|].
        by apply (IH h _ eq_refl).
Qed.

End Sorting.

Lemma elem_of_non_empty_queues d key :
  key ∈ non_empty_queues d <-> (0 < qsize d key)%nat.
Proof.
  unfold non_empty_queues.
  rewrite elem_of_sort_desc, list_elem_of_filter. split; [tauto|].
  intros H. split; [done|].
  destruct (qsize_pos_lookup d key H) as (? & ? & Hl).
  by eapply lookup_queue_key.
Qed.

Lemma non_empty_queues_head d k rest :
  non_empty_queues d = k :: rest ->
  (0 < qsize d k)%nat /\ forall k', (qsize d k' <= qsize d k)%nat.
Proof.
  intros Hs.
  assert (0 < qsize d k)%nat as Hk.
  { apply elem_of_non_empty_queues. rewrite Hs. apply elem_of_cons.
    by left. }
  split; [done|]. intros k'.
  destruct (decide (0 < qsize d k')%nat) as [Hpos|]; [|lia].
  apply (sort_desc_head_largest (qsize d) _ k rest Hs).
  apply list_elem_of_filter. split; [done|].
  destruct (qsize_pos_lookup d k' Hpos) as (? & ? & Hl).
  by eapply lookup_queue_key.
Qed.

(** The key [get] takes from, and what it returns for it. *)
Lemma get_from d preferred k :
  (0 < qsize d k)%nat ->
  (preferred = Some k
   \/ (exists rest, non_empty_queues d = k :: rest)
      /\ forall k', preferred = Some k' -> qsize d k' = 0%nat) ->
  exists subenv rest,
    lookup_queue d k = Some (subenv :: rest)
    /\ get d preferred = (Got subenv k, store_queue d k rest).
Proof.
  intros Hpos Hsel.
  destruct (qsize_pos_lookup d k Hpos) as (subenv & rest & Hl).
  exists subenv, rest. split; [done|]. unfold get.
  destruct (non_empty_queues d) as [|largest keys] eqn:Hne.
  { apply elem_of_non_empty_queues in Hpos. rewrite Hne in Hpos.
    by apply elem_of_nil in Hpos. }
  destruct Hsel as [->|[[rest' Heq] Hpref]].
  - rewrite decide_True
      by (rewrite <- Hne; by apply elem_of_non_empty_queues).
    by rewrite Hl.
  - injection Heq as -> ->. destruct preferred as [k'|].
    + rewrite decide_False; [by rewrite Hl|].
      rewrite <- Hne, elem_of_non_empty_queues.
      rewrite (Hpref k' eq_refl). lia.
    + by rewrite Hl.
Qed.

(** C7.  For every queue state and every [get(preferred_key)] run by one
    process: when every backlog is empty the result is the exhausted
    sentinel and the queues are unchanged; when the preferred key has a
    non-empty backlog its oldest job is dequeued; otherwise the oldest job
    of a key with the largest backlog is dequeued; a returned job is always
    the head of a non-empty backlog, and [get] never waits on an empty
    queue. *)
Theorem C7_get_spec (d : queues) (preferred : option string) :
  ((forall k, qsize d k = 0%nat) -> get d preferred = (Exhausted, d))
  /\ (forall k subenv rest,
         preferred = Some k ->
         lookup_queue d k = Some (subenv :: rest) ->
         get d preferred = (Got subenv k, store_queue d k rest))
  /\ ((exists k, (0 < qsize d k)%nat) ->
      (forall k, preferred = Some k -> qsize d k = 0%nat) ->
      exists k subenv rest,
        lookup_queue d k = Some (subenv :: rest)
        /\ (forall k', (qsize d k' <= qsize d k)%nat)
        /\ get d preferred = (Got subenv k, store_queue d k rest))
  /\ (forall subenv k d',
         get d preferred = (Got subenv k, d') ->
         exists rest,
           lookup_queue d k = Some (subenv :: rest)
           /\ d' = store_queue d k rest)
  /\ (get d preferred).1 <> Blocked.
Proof.
  split; [|split; [|split; [|split]]].
  - intros Hempty. unfold get.
    destruct (non_empty_queues d) as [|k keys] eqn:Hne; [done|].
    destruct (non_empty_queues_head d k keys Hne) as [Hpos _].
    rewrite Hempty in Hpos. lia.
  - intros k subenv rest -> Hl.
    destruct (get_from d (Some k) k) as (s' & r' & Hl' & Hget).
    + unfold qsize. rewrite Hl. simpl. lia.
    + by left.
    + congruence.
  - intros [k0 Hk0] Hpref.
    destruct (non_empty_queues d) as [|k keys] eqn:Hne.
    { apply elem_of_non_empty_queues in Hk0. rewrite Hne in Hk0.
      by apply elem_of_nil in Hk0. }
    destruct (non_empty_queues_head d k keys Hne) as [Hpos Hmax].
    destruct (get_from d preferred k Hpos) as (subenv & rest & Hl & Hget).
    { right. split; [by exists keys | done]. }
    exists k, subenv, rest. done.
  - intros subenv k d' Hget. unfold get in Hget.
    destruct (non_empty_queues d) as [|largest keys]; [done|].
    destruct (lookup_queue d _) as [[|s r]|] eqn:Hl; try done.
    injection Hget as -> <- <-. eauto.
  - unfold get.
    destruct (non_empty_queues d) as [|largest keys] eqn:Hne; [done|].
    set (key := match preferred with
                | Some k => if decide (k ∈ largest :: keys) then k
                            else largest
                | None => largest
                end).
    assert (key ∈ non_empty_queues d) as Hin.
    { rewrite Hne. subst key. destruct preferred as [k|].
      - destruct (decide (k ∈ largest :: keys)); [done|].
        apply elem_of_cons; by left.
      - apply elem_of_cons; by left. }
    apply elem_of_non_empty_queues, qsize_pos_lookup in Hin
      as (s & r & ->). done.
Qed.

Definition job (env_name id : string) (t : Z) : Subenv :=
  {| subenv_env_name := env_name; subenv_id := id; traj_id := t |}.

(** Two keys after [put]: one job under ["smoking_0"], two under
    ["smoking_1"]. *)
Definition two_keys : queues :=
  put (put (put [] "smoking_0" (job "smoking" "0" 0))
           "smoking_1" (job "smoking" "1" 0))
      "smoking_1" (job "smoking" "1" 1).

Example get_largest_backlog :
  get two_keys None
  = (Got (job "smoking" "1" 0) "smoking_1",
     [("smoking_0", [job "smoking" "0" 0]);
      ("smoking_1", [job "smoking" "1" 1])]).
Proof. reflexivity. Qed.

Lemma C7_get_witness :
  get two_keys (Some "smoking_0")
  = (Got (job "smoking" "0" 0) "smoking_0",
     store_queue two_keys "smoking_0" []).
Proof.
  apply (proj1 (proj2 (C7_get_spec two_keys (Some "smoking_0")))
           "smoking_0" (job "smoking" "0" 0) []); reflexivity.
Defined.

End TrajectoryQueueSpec.

(** ** Properties of the rate-limited client *)

Module OpenAIBackendSpec.
Import OpenAIBackend.
Local Open Scope Q_scope.

(** *** The buckets stay between zero and their capacity *)

(** Successive clock readings never go back: no elapsed time is negative. *)
Fixpoint nondecreasing_from (t : Q) (clock : list Q) : Prop :=
  match clock with
  | [] => True
  | now :: clock' => t <= now /\ nondecreasing_from now clock'
  end.

(** One operation on the budgets: a refill or an acquire, on either bucket,
    at clock readings that do not precede the last refill, for an amount
    that is not negative. *)
Inductive budget_step : Backend -> Backend -> Prop :=
| step_refill_request self now :
    last_refill_time_request self <= now ->
    budget_step self (_refill_request_bucket now self)
| step_refill_token self now :
    last_refill_time_token self <= now ->
    budget_step self (_refill_token_bucket now self)
| step_acquire_requests self clock requests :
    0 <= requests ->
    nondecreasing_from (last_refill_time_request self) clock ->
    budget_step self (_acquire_requests clock requests self).2
| step_acquire_tokens self clock tokens :
    0 <= tokens ->
    nondecreasing_from (last_refill_time_token self) clock ->
    budget_step self (_acquire_tokens clock tokens self).2.

Definition within_capacity (self : Backend) : Prop :=
  (0 <= request_bucket self <= max_requests_per_minute self)
  /\ (0 <= token_bucket self <= max_tokens_per_minute self).

Lemma refill_amount_bounds capacity remaining elapsed :
  0 <= capacity -> 0 <= remaining -> 0 <= elapsed ->
  0 <= Qmin capacity (remaining + elapsed * (capacity / 60)) <= capacity.
Proof.
  intros Hc Hr He. split; [|apply Q.le_min_l].
  apply Q.min_glb; [done|].
  rewrite <- (Qplus_0_l 0). apply Qplus_le_compat; [done|].
  apply Qmult_le_0_compat; [done|].
  apply Qmult_le_0_compat; [done|]. discriminate.
Qed.

Lemma elapsed_nonneg (last now : Q) : last <= now -> 0 <= now - last.
Proof. intros H. unfold Qminus. rewrite <- Qle_minus_iff. done. Qed.

Lemma refill_request_within self now :
  last_refill_time_request self <= now ->
  within_capacity self -> within_capacity (_refill_request_bucket now self).
Proof.
  intros Hnow [[Hr0 Hr1] Ht]. split; [|exact Ht]. simpl.
  apply refill_amount_bounds;
    [exact (Qle_trans _ _ _ Hr0 Hr1) | done | by apply elapsed_nonneg].
Qed.

Lemma refill_token_within self now :
  last_refill_time_token self <= now ->
  within_capacity self -> within_capacity (_refill_token_bucket now self).
Proof.
  intros Hnow [Hr [Ht0 Ht1]]. split; [exact Hr|]. simpl.
  apply refill_amount_bounds;
    [exact (Qle_trans _ _ _ Ht0 Ht1) | done | by apply elapsed_nonneg].
Qed.

Lemma deduct_bounds capacity remaining amount :
  0 <= amount -> amount <= remaining -> remaining <= capacity ->
  0 <= remaining - amount <= capacity.
Proof.
  intros Ha Hle Hcap. split.
  - unfold Qminus. by rewrite <- Qle_minus_iff.
  - apply Qle_trans with remaining; [|done].
    rewrite <- (Qplus_0_r remaining) at 2. unfold Qminus.
    apply Qplus_le_compat; [apply Qle_refl|].
    by apply (Qopp_le_compat 0 amount).
Qed.

Lemma acquire_requests_within clock requests self :
  0 <= requests ->
  nondecreasing_from (last_refill_time_request self) clock ->
  within_capacity self ->
  within_capacity (_acquire_requests clock requests self).2.
Proof.
  intros Hreq. revert self.
  induction clock as [|now clock IH]; intros self Hclock Hin; [done|].
  destruct Hclock as [Hnow Hclock]. simpl.
  pose proof (refill_request_within self now Hnow Hin) as Hin'.
  destruct (Qle_bool requests _) eqn:Hle.
  - apply Qle_bool_iff in Hle. destruct Hin' as [[? ?] Ht].
    split; [|exact Ht]. simpl. by apply deduct_bounds.
  - by apply IH.
Qed.

Lemma acquire_tokens_within clock tokens self :
  0 <= tokens ->
  nondecreasing_from (last_refill_time_token self) clock ->
  within_capacity self ->
  within_capacity (_acquire_tokens clock tokens self).2.
Proof.
  intros Htok. revert self.
  induction clock as [|now clock IH]; intros self Hclock Hin; [done|].
  destruct Hclock as [Hnow Hclock]. simpl.
  pose proof (refill_token_within self now Hnow Hin) as Hin'.
  destruct (Qle_bool tokens _) eqn:Hle.
  - apply Qle_bool_iff in Hle. destruct Hin' as [Hr [? ?]].
    split; [exact Hr|]. simpl. by apply deduct_bounds.
  - by apply IH.
Qed.

Lemma budget_step_within self self' :
  budget_step self self' -> within_capacity self -> within_capacity self'.
Proof.
  intros [] ?; eauto using refill_request_within, refill_token_within,
    acquire_requests_within, acquire_tokens_within.
Qed.

(** No operation changes a capacity. *)
Lemma acquire_requests_capacity clock requests self :
  max_requests_per_minute (_acquire_requests clock requests self).2
  = max_requests_per_minute self
  /\ max_tokens_per_minute (_acquire_requests clock requests self).2
     = max_tokens_per_minute self.
Proof.
  revert self. induction clock as [|now clock IH]; intros self; [done|].
  simpl. destruct (Qle_bool requests _); [done|].
  destruct (IH (_refill_request_bucket now self)) as [-> ->]. done.
Qed.

Lemma acquire_tokens_capacity clock tokens self :
  max_requests_per_minute (_acquire_tokens clock tokens self).2
  = max_requests_per_minute self
  /\ max_tokens_per_minute (_acquire_tokens clock tokens self).2
     = max_tokens_per_minute self.
Proof.
  revert self. induction clock as [|now clock IH]; intros self; [done|].
  simpl. destruct (Qle_bool tokens _); [done|].
  destruct (IH (_refill_token_bucket now self)) as [-> ->]. done.
Qed.

Lemma budget_step_capacity self self' :
  budget_step self self' ->
  max_requests_per_minute self' = max_requests_per_minute self
  /\ max_tokens_per_minute self' = max_tokens_per_minute self.
Proof.
  intros []; [done | done | apply acquire_requests_capacity
             | apply acquire_tokens_capacity].
Qed.

(** What one iteration of the acquire loop does: refill, then deduct the
    amount exactly when the refilled bucket holds at least that much. *)
Lemma acquire_requests_iteration now clock requests self :
  let refilled := _refill_request_bucket now self in
  (requests <= request_bucket refilled ->
   _acquire_requests (now :: clock) requests self
   = (true, take_requests requests refilled))
  /\ (~ requests <= request_bucket refilled ->
      _acquire_requests (now :: clock) requests self
      = _acquire_requests clock requests refilled).
Proof.
  intros refilled.
  change (_acquire_requests (now :: clock) requests self)
    with (if Qle_bool requests (request_bucket refilled)
          then (true, take_requests requests refilled)
          else _acquire_requests clock requests refilled).
  destruct (Qle_bool requests (request_bucket refilled)) eqn:Hle.
  - split; [reflexivity|]. intros Hn. by apply Qle_bool_iff in Hle.
  - split; [|reflexivity]. intros H%Qle_bool_iff. congruence.
Qed.

Lemma acquire_tokens_iteration now clock tokens self :
  let refilled := _refill_token_bucket now self in
  (tokens <= token_bucket refilled ->
   _acquire_tokens (now :: clock) tokens self
   = (true, take_tokens tokens refilled))
  /\ (~ tokens <= token_bucket refilled ->
      _acquire_tokens (now :: clock) tokens self
      = _acquire_tokens clock tokens refilled).
Proof.
  intros refilled.
  change (_acquire_tokens (now :: clock) tokens self)
    with (if Qle_bool tokens (token_bucket refilled)
          then (true, take_tokens tokens refilled)
          else _acquire_tokens clock tokens refilled).
  destruct (Qle_bool tokens (token_bucket refilled)) eqn:Hle.
  - split; [reflexivity|]. intros Hn. by apply Qle_bool_iff in Hle.
  - split; [|reflexivity]. intros H%Qle_bool_iff. congruence.
Qed.

(** C8.  Start from full buckets with capacities that are not negative and
    apply any sequence of refills and acquires whose clock readings never go
    back and whose amounts are not negative.  Then each bucket is between 0
    and its capacity; a refill sets the bucket to
    [min(capacity, remaining + elapsed * capacity / 60)] and the refill time
    to the clock reading; and an iteration of an acquire deducts the amount
    exactly when the refilled bucket holds at least that amount, and
    otherwise only waits for the next iteration. *)
Theorem C8_budgets_within_capacity
    (max_requests max_tokens now0 : Q) (final_string : string)
    (self : Backend) :
  0 <= max_requests -> 0 <= max_tokens ->
  rtc budget_step (init max_requests max_tokens now0 final_string) self ->
  (0 <= request_bucket self <= max_requests)
  /\ (0 <= token_bucket self <= max_tokens)
  /\ (forall now,
        request_bucket (_refill_request_bucket now self)
        = Qmin max_requests
               (request_bucket self
                + (now - last_refill_time_request self)
                  * (max_requests / 60))
        /\ last_refill_time_request (_refill_request_bucket now self) = now
        /\ token_bucket (_refill_token_bucket now self)
           = Qmin max_tokens
                  (token_bucket self
                   + (now - last_refill_time_token self)
                     * (max_tokens / 60))
        /\ last_refill_time_token (_refill_token_bucket now self) = now)
  /\ (forall now clock amount,
        let refilled := _refill_request_bucket now self in
        (amount <= request_bucket refilled ->
         _acquire_requests (now :: clock) amount self
         = (true, take_requests amount refilled)
         /\ request_bucket (take_requests amount refilled)
            = request_bucket refilled - amount)
        /\ (~ amount <= request_bucket refilled ->
            _acquire_requests (now :: clock) amount self
            = _acquire_requests clock amount refilled))
  /\ (forall now clock amount,
        let refilled := _refill_token_bucket now self in
        (amount <= token_bucket refilled ->
         _acquire_tokens (now :: clock) amount self
         = (true, take_tokens amount refilled)
         /\ token_bucket (take_tokens amount refilled)
            = token_bucket refilled - amount)
        /\ (~ amount <= token_bucket refilled ->
            _acquire_tokens (now :: clock) amount self
            = _acquire_tokens clock amount refilled)).
Proof.
  intros Hreq Htok Hrun.
  assert (within_capacity self
          /\ max_requests_per_minute self = max_requests
          /\ max_tokens_per_minute self = max_tokens) as (Hin & Hr & Ht).
  { revert self Hrun. apply rtc_ind_r.
    - repeat split; simpl; first [done | apply Qle_refl].
    - intros mid self' _ Hstep (Hin & Hr & Ht).
      destruct (budget_step_capacity _ _ Hstep) as [Hr' Ht'].
      split; [by eapply budget_step_within|]. split; congruence. }
  destruct Hin as [Hrb Htb]. rewrite Hr in Hrb. rewrite Ht in Htb.
  split; [done|]. split; [done|]. split; [|split].
  - intros now. simpl. rewrite Hr, Ht. done.
  - intros now clock amount refilled.
    destruct (acquire_requests_iteration now clock amount self) as [H1 H2].
    split; [|exact H2]. intros Hle. split; [by apply H1 | done].
  - intros now clock amount refilled.
    destruct (acquire_tokens_iteration now clock amount self) as [H1 H2].
    split; [|exact H2]. intros Hle. split; [by apply H1 | done].
Qed.

Lemma C8_budgets_witness :
  let self :=
    (_acquire_requests [1] 1 (init 5 10 0 "The answer is: ")).2 in
  0 <= request_bucket self <= 5 /\ 0 <= token_bucket self <= 10.
Proof.
  intros self.
  destruct (C8_budgets_within_capacity 5 10 0 "The answer is: " self)
    as (Hr & Ht & _).
  - discriminate.
  - discriminate.
  - apply rtc_once. apply step_acquire_requests.
    + discriminate.
    + simpl. split; [discriminate | exact I].
  - split; [exact Hr | exact Ht].
Defined.

(** After a minute without acquires a bucket drained by 4 is full again,
    and not more than full. *)
Example refill_is_capped :
  request_bucket
    (_refill_request_bucket 61
       (_acquire_requests [1] 4 (init 5 10 0 "The answer is: ")).2)
  = 5.
Proof. reflexivity. Qed.

(** *** Sums over a dict of probabilities *)



Lemma sum_values_zero (d : gmap string Q) :
  (forall k v, d !! k = Some v -> v == 0) -> sum_values d == 0.
Proof.
  unfold sum_values.
  apply (map_fold_weak_ind
           (fun r (m : gmap string Q) =>
              (forall k v, m !! k = Some v -> v == 0) -> r == 0)).
  - done.
  - intros k v m r Hk IH Hall.
    rewrite (Hall k v) by apply lookup_insert_eq.
    rewrite IH; [done|]. intros k' v' Hk'. apply (Hall k').
    rewrite lookup_insert_ne; [done|]. intros ->. congruence.
Qed.


(** *** The restriction to the valid tokens *)

Lemma valid_probs_fold token_probs valid_tokens (d : gmap string Q) k :
  fold_left (fun d k => <[k := prob_of token_probs k]> d) valid_tokens d
    !! k
  = if decide (k ∈ valid_tokens) then Some (prob_of token_probs k)
    else d !! k.
Proof.
  revert d. induction valid_tokens as [|t ts IH]; intros d; cbn [fold_left].
  - rewrite decide_False; [done|]. by intros ?%elem_of_nil.
  - rewrite IH. destruct (decide (k ∈ ts)) as [Hin|Hnin].
    + rewrite decide_True; [done|]. apply elem_of_cons. by right.
    + destruct (decide (k = t)) as [->|Hne].
      * rewrite lookup_insert_eq, decide_True; [done|].
        apply elem_of_cons. by left.
      * rewrite lookup_insert_ne by done. rewrite decide_False; [done|].
        intros [?|?]%elem_of_cons; done.
Qed.

Lemma valid_probs_lookup token_probs valid_tokens k :
  valid_probs token_probs valid_tokens !! k
  = if decide (k ∈ valid_tokens) then Some (prob_of token_probs k)
    else None.
Proof. unfold valid_probs. by rewrite valid_probs_fold, lookup_empty. Qed.

Lemma normalize_lookup token_probs valid_tokens k :
  let total := sum_values (valid_probs token_probs valid_tokens) in
  normalize token_probs valid_tokens !! k
  = if decide (k ∈ valid_tokens)
    then Some (if Qlt_le_dec 0 total then prob_of token_probs k / total
               else prob_of token_probs k)
    else None.
Proof.
  intros total. unfold normalize. fold total.
  destruct (Qlt_le_dec 0 total).
  - rewrite lookup_fmap, valid_probs_lookup. by destruct (decide _).
  - apply valid_probs_lookup.
Qed.


(** The top-5 mass of the specification's example. *)
Definition example_token_probs : gmap string Q :=
  <["2" := 6 # 10]> (<["3" := 3 # 10]> (<["x" := 1 # 10]> ∅)).


(** Valid tokens 1, 2, 3 with top-5 mass 2: 0.6, 3: 0.3, x: 0.1 give
    1: 0, 2: 0.6/0.9, 3: 0.3/0.9, and no entry for x. *)
Example normalize_spec_example :
  let result := normalize example_token_probs ["1"; "2"; "3"] in
  (exists p1 p2 p3,
      result !! "1" = Some p1 /\ p1 == 0
      /\ result !! "2" = Some p2 /\ p2 == (6 # 10) / (9 # 10)
      /\ p2 == 2 # 3
      /\ result !! "3" = Some p3 /\ p3 == (3 # 10) / (9 # 10)
      /\ p3 == 1 # 3)
  /\ result !! "x" = None.
Proof.
  vm_compute. split; [|reflexivity].
  do 3 eexists. repeat split.
Qed.

(** *** Locating the final answer *)

Lemma append_empty_r (s : string) : s +:+ "" = s.
Proof.
  induction s as [|c s IH]; [reflexivity|].
  change (String c (s +:+ "") = String c s). by rewrite IH.
Qed.

Lemma append_assoc (s1 s2 s3 : string) :
  (s1 +:+ s2) +:+ s3 = s1 +:+ (s2 +:+ s3).
Proof.
  induction s1 as [|c s1 IH]; [reflexivity|].
  change (String c ((s1 +:+ s2) +:+ s3) = String c (s1 +:+ (s2 +:+ s3))).
  by rewrite IH.
Qed.

(** The text of a list of tokens. *)
Definition join (tokens : list string) : string :=
  foldr String.append "" tokens.

(** The text up to the boundary after the [k]-th token ends with the final
    string. *)
Definition ends_at (final_string : string) (tokens : list string)
    (k : nat) : bool :=
  endswith (join (take k tokens)) final_string.

Lemma join_take_S prefix tok tokens k :
  prefix +:+ join (take (S k) (tok :: tokens))
  = (prefix +:+ tok) +:+ join (take k tokens).
Proof. simpl. unfold join. by rewrite append_assoc. Qed.

(** The loop returns [-1] when no boundary ends with the final string, and
    otherwise the number of tokens up to the first such boundary, counted
    from [index]. *)
Lemma find_final_answer_index_none final_string tokens prefix index :
  (forall k, (1 <= k <= length tokens)%nat ->
             endswith (prefix +:+ join (take k tokens)) final_string
             = false) ->
  find_final_answer_index final_string tokens prefix index = (-1)%Z.
Proof.
  revert prefix index.
  induction tokens as [|tok tokens IH]; intros prefix index Hno; [done|].
  simpl. pose proof (Hno 1%nat ltac:(simpl; lia)) as H1.
  rewrite join_take_S in H1. simpl in H1. rewrite append_empty_r in H1.
  rewrite H1. apply IH. intros k Hk.
  rewrite <- join_take_S. apply Hno. simpl. lia.
Qed.

Lemma find_final_answer_index_first final_string tokens prefix index k :
  (1 <= k <= length tokens)%nat ->
  endswith (prefix +:+ join (take k tokens)) final_string = true ->
  (forall j, (1 <= j < k)%nat ->
             endswith (prefix +:+ join (take j tokens)) final_string
             = false) ->
  find_final_answer_index final_string tokens prefix index
  = (index + Z.of_nat k)%Z.
Proof.
  revert prefix index k.
  induction tokens as [|tok tokens IH]; intros prefix index k Hk Hhit Hno.
  { simpl in Hk. lia. }
  simpl. destruct k as [|k]; [lia|]. rewrite join_take_S in Hhit.
  destruct k as [|k].
  - simpl in Hhit. rewrite append_empty_r in Hhit. rewrite Hhit. lia.
  - pose proof (Hno 1%nat ltac:(lia)) as H1.
    rewrite join_take_S in H1. simpl in H1. rewrite append_empty_r in H1.
    rewrite H1. rewrite (IH _ _ (S k)); [lia | simpl in Hk; lia | done |].
    intros j Hj. rewrite <- join_take_S. apply Hno. lia.
Qed.

(** No probability at all restricts to zero on every valid token, and the
    normalisation leaves that dict alone. *)
Lemma valid_probs_empty valid_tokens k :
  valid_probs ∅ valid_tokens !! k
  = if decide (k ∈ valid_tokens) then Some 0 else None.
Proof. by rewrite valid_probs_lookup. Qed.

Lemma normalize_empty valid_tokens :
  normalize ∅ valid_tokens = valid_probs ∅ valid_tokens.
Proof.
  unfold normalize.
  destruct (Qlt_le_dec 0 (sum_values (valid_probs ∅ valid_tokens)))
    as [Hlt|_]; [|done].
  rewrite sum_values_zero in Hlt; [by apply Qlt_irrefl in Hlt|].
  intros k v. rewrite valid_probs_empty. destruct (decide _); [|done].
  by intros [= <-].
Qed.

Section Scoring.
Variable exp : Q -> Q.

(** C9.  With the chain of thought enabled: when no token boundary of the
    response ends with the final string, or the first one that does is at or
    after the last generated token (the answer position is outside the
    response), [get_token_probs_and_chain_of_thought] returns the empty dict
    with the raw text, and the normalised scoring returns, without raising,
    the distribution that is 0 on every valid token together with that
    text. *)
Theorem C9_degenerate_scoring (self : Backend) (response : ChatCompletion)
    (valid_tokens : list string) :
  let final_string := chain_of_thought_final_string self in
  let tokens := map token (logprobs_content response) in
  ((forall k, (1 <= k <= length tokens)%nat ->
              ends_at final_string tokens k = false)
   \/ (exists k, (1 <= k)%nat
                 /\ ends_at final_string tokens k = true
                 /\ (forall j, (1 <= j < k)%nat ->
                               ends_at final_string tokens j = false)
                 /\ (length tokens <= k)%nat)) ->
  get_token_probs_and_chain_of_thought exp self response true
  = Ok (∅, message_content response)
  /\ _async_get_next_token_probs_normalized exp self response valid_tokens
                                            true
     = Ok (valid_probs ∅ valid_tokens, message_content response)
  /\ (forall t, t ∈ valid_tokens ->
                valid_probs ∅ valid_tokens !! t = Some 0)
  /\ (forall t, is_Some (valid_probs ∅ valid_tokens !! t)
                <-> t ∈ valid_tokens).
Proof.
  intros final_string tokens Hdeg.
  assert (get_token_probs_and_chain_of_thought exp self response true
          = Ok (∅, message_content response)) as Hget.
  { unfold get_token_probs_and_chain_of_thought, locate_final_answer.
    fold final_string tokens.
    destruct (contains final_string (message_content response)); [|done].
    simpl.
    destruct Hdeg as [Hno|(k & Hk1 & Hhit & Hfirst & Hout)].
    - rewrite find_final_answer_index_none; [done|]. exact Hno.
    - destruct (decide (k <= length tokens)%nat) as [Hle|Hgt].
      + rewrite (find_final_answer_index_first _ _ _ _ k);
          [|lia|exact Hhit|exact Hfirst].
        destruct (Z.eqb_spec (0 + Z.of_nat k) (-1)); [lia|].
        unfold tokens in Hout. rewrite length_map in Hout.
        destruct (Z.leb_spec (Z.of_nat (length (logprobs_content response)))
                             (0 + Z.of_nat k)); [done|lia].
      + rewrite find_final_answer_index_none; [done|].
        intros j Hj. apply Hfirst. lia. }
  split; [exact Hget|]. split; [|split].
  - unfold _async_get_next_token_probs_normalized. rewrite Hget. simpl.
    by rewrite normalize_empty.
  - intros t Ht. by rewrite valid_probs_empty, decide_True.
  - intros t. rewrite valid_probs_empty.
    destruct (decide (t ∈ valid_tokens));
      [by eauto | split; [by intros [? ?] | done]].
Qed.

End Scoring.

Definition example_backend : Backend :=
  init 5000 500000 0 "The answer is: ".

Definition plain_token (t : string) : TokenLogprob :=
  {| token := t; top_logprobs := [] |}.

(** A response that never reaches the final string. *)
Definition no_marker_response : ChatCompletion :=
  {| message_content := "I think so";
     logprobs_content := [plain_token "I think"; plain_token " so"] |}.

Lemma C9_degenerate_witness :
  _async_get_next_token_probs_normalized (fun _ => 1) example_backend
    no_marker_response ["1"; "2"] true
  = Ok (valid_probs ∅ ["1"; "2"], "I think so").
Proof.
  apply (C9_degenerate_scoring (fun _ => 1) example_backend
           no_marker_response ["1"; "2"]).
  left. intros k Hk. simpl in Hk.
  destruct k as [|[|[|k]]]; [lia | reflexivity | reflexivity | lia].
Defined.

(** A response cut off right after the final string: the answer position is
    the token after the last one. *)
Example marker_at_the_end :
  get_token_probs_and_chain_of_thought (fun _ => 1) example_backend
    {| message_content := "So. The answer is: ";
       logprobs_content := [plain_token "So."; plain_token " The answer";
                            plain_token " is: "] |}
    true
  = Ok (∅, "So. The answer is: ").
Proof. reflexivity. Qed.

(** *** The five top log-probabilities *)

Section TopFive.
Variable exp : Q -> Q.

Lemma top_five_probs_short top_logprobs :
  (length top_logprobs < 5)%nat ->
  top_five_probs exp top_logprobs = Raise IndexError.
Proof.
  intros Hlen.
  destruct top_logprobs as [|a [|b [|c [|d [|e rest]]]]];
    [reflexivity..|]. simpl in Hlen. lia.
Qed.

Lemma top_five_probs_first_five top_logprobs :
  (5 <= length top_logprobs)%nat ->
  exists tokens,
    top_five_probs exp top_logprobs = Ok tokens
    /\ top_five_probs exp (take 5 top_logprobs) = Ok tokens.
Proof.
  intros Hlen.
  destruct top_logprobs as [|a [|b [|c [|d [|e rest]]]]];
    try (simpl in Hlen; lia).
  eexists. split; reflexivity.
Qed.

(** C10.  When [get_token_probs_and_chain_of_thought] reaches the
    extraction (the answer position is inside the response), it reads the
    entries 0 to 4 of that position's [top_logprobs]: with at least five
    entries the result is the dict built from the first five of them, and
    with fewer than five the indexing raises [IndexError].  Such a response
    exists. *)
Theorem C10_top_five_in_bounds :
  (forall self response use_chain_of_thought final_answer_index
          chain_of_thought,
      locate_final_answer self response use_chain_of_thought
      = inr (final_answer_index, chain_of_thought) ->
      (0 <= final_answer_index
       < Z.of_nat (length (logprobs_content response)))%Z ->
      exists answer,
        logprobs_content response !! Z.to_nat final_answer_index
        = Some answer
        /\ ((5 <= length (top_logprobs answer))%nat ->
            exists tokens,
              top_five_probs exp (take 5 (top_logprobs answer)) = Ok tokens
              /\ get_token_probs_and_chain_of_thought
                   exp self response use_chain_of_thought
                 = Ok (tokens, chain_of_thought))
        /\ ((length (top_logprobs answer) < 5)%nat ->
            get_token_probs_and_chain_of_thought
              exp self response use_chain_of_thought
            = Raise IndexError))
  /\ (exists self response answer,
         logprobs_content response !! 0%nat = Some answer
         /\ (length (top_logprobs answer) < 5)%nat
         /\ get_token_probs_and_chain_of_thought exp self response false
            = Raise IndexError).
Proof.
  split.
  - intros self response use_cot idx cot Hloc [Hidx0 Hidx].
    destruct (logprobs_content response !! Z.to_nat idx) as [answer|]
      eqn:Hanswer.
    2:{ apply lookup_ge_None in Hanswer. lia. }
    exists answer. split; [done|].
    unfold get_token_probs_and_chain_of_thought. rewrite Hloc.
    destruct (Z.leb_spec (Z.of_nat (length (logprobs_content response)))
                         idx) as [?|_]; [lia|].
    unfold item. rewrite Hanswer. simpl. split.
    + intros Hlen.
      destruct (top_five_probs_first_five _ Hlen) as (tokens & H1 & H2).
      exists tokens. split; [done|]. by rewrite H1.
    + intros Hlen. by rewrite top_five_probs_short.
  - exists example_backend,
      {| message_content := "1";
         logprobs_content :=
           [ {| token := "1";
                top_logprobs := [ {| top_token := "1"; logprob := 0 |};
                                  {| top_token := "2"; logprob := -3 |} ]
             |} ] |}.
    eexists. split; [reflexivity|]. split; [simpl; lia | reflexivity].
Qed.

End TopFive.

Definition five_entries : list TopLogprob :=
  [ {| top_token := "2"; logprob := 0 |};
    {| top_token := " 2"; logprob := 0 |};
    {| top_token := "Yes"; logprob := 0 |};
    {| top_token := "3"; logprob := 0 |};
    {| top_token := "x"; logprob := 0 |};
    {| top_token := "1"; logprob := 0 |} ].

Definition scored_response : ChatCompletion :=
  {| message_content := "2";
     logprobs_content := [ {| token := "2"; top_logprobs := five_entries |} ]
  |}.

(** The tokens ["2"] and [" 2"] fall on one key and their mass is added; the
    sixth entry is not read. *)
Example top_five_merges_mass :
  top_five_probs (fun _ => 1 # 5) five_entries
  = Ok (<["x" := 0 + (1 # 5)]> (<["3" := 0 + (1 # 5)]>
         (<["yes" := 0 + (1 # 5)]>
           (<["2" := 0 + (1 # 5) + (1 # 5)]> ∅)))).
Proof. vm_compute. reflexivity. Qed.

Lemma C10_top_five_witness :
  exists tokens,
    top_five_probs (fun _ => 1 # 5) (take 5 five_entries) = Ok tokens
    /\ get_token_probs_and_chain_of_thought (fun _ => 1 # 5)
         example_backend scored_response false
       = Ok (tokens, "").
Proof.
  destruct (proj1 (C10_top_five_in_bounds (fun _ => 1 # 5))
              example_backend scored_response false 0%Z "" eq_refl)
    as (answer & Hanswer & Hfive & _).
  - simpl. lia.
  - injection Hanswer as <-. apply Hfive. simpl. lia.
Defined.

End OpenAIBackendSpec.

(** ** Properties of the conversation state machine *)

Module EnvironmentSpec.
Import Environment.

(** *** Copies and appends in the store *)

Lemma deepcopy_fresh l w : heap w !! (deepcopy l w).1 = None.
Proof.
  simpl. apply not_elem_of_dom. apply is_fresh.
Qed.

Lemma deepcopy_contents l w :
  heap (deepcopy l w).2 !! (deepcopy l w).1
  = Some (default [] (heap w !! l)).
Proof. simpl. apply lookup_insert_eq. Qed.

Lemma deepcopy_other l w l' :
  is_Some (heap w !! l') ->
  l' <> (deepcopy l w).1
  /\ heap (deepcopy l w).2 !! l' = heap w !! l'.
Proof.
  intros Hl'.
  assert (l' <> (deepcopy l w).1) as Hne.
  { intros ->. rewrite deepcopy_fresh in Hl'. by destruct Hl'. }
  split; [done|]. simpl. by rewrite lookup_insert_ne.
Qed.

Lemma append_other l m w l' :
  l' <> l -> heap (append l m w) !! l' = heap w !! l'.
Proof. intros Hne. simpl. by rewrite lookup_alter_ne. Qed.

Lemma append_contents l m w :
  heap (append l m w) !! l = (fun msgs => msgs ++ [m])%list <$> heap w !! l.
Proof. simpl. by rewrite lookup_alter_eq. Qed.

Section Methods.
Variable count_format_fields : string -> nat.
Variable format_map : string -> gmap string string -> result string.
Variable choice : nat -> bool.

Local Abbreviation create_state :=
  (create_state count_format_fields format_map choice).
Local Abbreviation append_scripted :=
  (append_scripted count_format_fields format_map choice).
Local Abbreviation post_transition_processing :=
  (post_transition_processing count_format_fields format_map choice).

Lemma message_format_vars_heap self w :
  heap (message_format_vars choice self w).2 = heap w.
Proof.
  unfold message_format_vars.
  destruct (env_format_vars self !! "char_action1"); [|done].
  by destruct (env_format_vars self !! "char_action2").
Qed.

(** The scripted messages are appended to the list they are given, and to
    no other list. *)
Lemma append_scripted_other self state_name h messages fv w l :
  l <> h ->
  heap (append_scripted self state_name h messages fv w).2 !! l
  = heap w !! l.
Proof.
  intros Hne. revert fv w.
  induction messages as [|message messages IH]; intros fv w; [done|].
  simpl. destruct (_ && _); [done|].
  pose proof (message_format_vars_heap self w) as Hh.
  destruct (message_format_vars choice self w) as [[fv'|e] w1];
    simpl in Hh; [|simpl; by rewrite Hh].
  destruct (format_map (content message) fv') as [text|e];
    [|simpl; by rewrite Hh].
  rewrite IH. rewrite append_other by done. by rewrite Hh.
Qed.

(** What [create_state] returns, when it returns. *)
Lemma create_state_ok self state_name t h w next w' :
  create_state self state_name t h w = (Ok next, w') ->
  name next = state_name /\ turns next = t /\ history next = h
  /\ forall l, l <> h -> heap w' !! l = heap w !! l.
Proof.
  unfold Environment.create_state.
  destruct (state_config self !! state_name) as [def|]; [|done].
  pose proof (append_scripted_other self state_name h (sd_history def)
                (env_format_vars self) w) as Hother.
  destruct (append_scripted _ _ _ _ _ _) as [[fv|e] w1]; [|done].
  intros [= <- <-]. simpl. repeat split; done.
Qed.

(** C2.  [post_transition_processing] looks up the given label when it is a
    key of [valid_transitions] and the default transition otherwise.  When
    the target is the current state's name, it returns the current state
    with [turns + 1] and a copied history.  Otherwise it returns what
    [create_state] returns for the target name, [turns + 1] and a deep copy
    of the current history.  Every state it returns has the turn count of
    the input state plus 1. *)
Theorem C2_advance_turns (self : Env) (state : State)
    (transition action : string) (w : World) :
  let label := resolve_transition state transition in
  (is_Some (valid_transitions state !! transition) -> label = transition)
  /\ (valid_transitions state !! transition = None ->
      label = default_transition state)
  /\ (forall target,
        valid_transitions state !! label = Some target ->
        next_state target = name state ->
        exists h,
          heap w !! h = None
          /\ post_transition_processing self state transition action w
             = (Ok {| name := name state; history := h;
                      format_vars := format_vars state;
                      turns := turns state + 1;
                      valid_transitions := valid_transitions state;
                      default_transition := default_transition state;
                      terminal := terminal state |},
                set_heap (<[h := default [] (heap w !! history state)]>
                            (heap w)) w))
  /\ (forall target,
        valid_transitions state !! label = Some target ->
        next_state target <> name state ->
        exists h,
          heap w !! h = None
          /\ post_transition_processing self state transition action w
             = create_state self (next_state target) (turns state + 1) h
                 (set_heap (<[h := default [] (heap w !! history state)]>
                              (heap w)) w))
  /\ (forall next w',
        post_transition_processing self state transition action w
        = (Ok next, w') ->
        turns next = turns state + 1).
Proof.
  intros label. unfold Environment.post_transition_processing.
  fold label. split; [|split; [|split; [|split]]].
  - intros Hkey. unfold label, resolve_transition.
    by rewrite bool_decide_eq_true_2.
  - intros Hnone. unfold label, resolve_transition.
    rewrite bool_decide_eq_false_2; [done|]. rewrite Hnone.
    by intros [? ?].
  - intros target -> Hself. apply String.eqb_eq in Hself. rewrite Hself.
    exists (deepcopy (history state) w).1.
    split; [apply deepcopy_fresh | done].
  - intros target -> Hother. apply String.eqb_neq in Hother.
    rewrite Hother. exists (deepcopy (history state) w).1.
    split; [apply deepcopy_fresh | done].
  - intros next w'.
    destruct (valid_transitions state !! label) as [target|]; [|done].
    destruct (String.eqb (next_state target) (name state)).
    + by intros [= <- <-].
    + simpl. intros Hcreate. by apply create_state_ok in Hcreate as (_ & -> & _).
Qed.

(** C4.  Take a transition out of a state whose history is in the store.
    When it leads to another state, the new state's history is a different
    list from the old state's, the transition leaves the old list as it
    was, and so does any later append to, or replacement of, the new list.
    When it is a self-loop, the history of the produced state has the
    messages, hence the length, of the history it loops from. *)
Theorem C4_history_not_aliased (self : Env) (state : State)
    (transition action : string) (w : World) (next : State) (w' : World) :
  is_Some (heap w !! history state) ->
  post_transition_processing self state transition action w
  = (Ok next, w') ->
  let label := resolve_transition state transition in
  (forall target,
      valid_transitions state !! label = Some target ->
      next_state target <> name state ->
      history next <> history state
      /\ heap w' !! history state = heap w !! history state
      /\ (forall m,
            heap (append (history next) m w') !! history state
            = heap w !! history state)
      /\ (forall msgs,
            <[history next := msgs]> (heap w') !! history state
            = heap w !! history state))
  /\ (forall target,
        valid_transitions state !! label = Some target ->
        next_state target = name state ->
        exists old new,
          heap w !! history state = Some old
          /\ heap w' !! history next = Some new
          /\ length new = length old).
Proof.
  intros Hold Hrun label. unfold Environment.post_transition_processing in Hrun.
  fold label in Hrun. split.
  - intros target Htarget Hother. rewrite Htarget in Hrun.
    apply String.eqb_neq in Hother. rewrite Hother in Hrun.
    destruct (deepcopy_other (history state) w (history state) Hold)
      as [Hne Hsame].
    destruct (deepcopy (history state) w) as [h w1] eqn:Hcopy.
    simpl in Hne, Hsame.
    apply create_state_ok in Hrun as (_ & _ & Hh & Hframe).
    rewrite Hh. split; [done|].
    assert (heap w' !! history state = heap w !! history state) as Hkept.
    { rewrite Hframe by done. exact Hsame. }
    split; [done|]. split.
    + intros m. by rewrite append_other.
    + intros msgs. by rewrite lookup_insert_ne.
  - intros target Htarget Hself. rewrite Htarget in Hrun.
    apply String.eqb_eq in Hself. rewrite Hself in Hrun.
    injection Hrun as <- <-. destruct Hold as [old Hold].
    exists old, old. split; [done|]. split; [|done].
    simpl. by rewrite lookup_insert_eq, Hold.
Qed.

End Methods.

(** *** A two-state conversation *)

Definition demo_transitions : gmap string Transition :=
  <["yes" := {| next_state := "terminal_state" |}]>
    (<["no" := {| next_state := "initial_state" |}]> ∅).

Definition demo_env : Env :=
  {| max_turns := 5;
     env_format_vars := <["agent_name" := "Therapist"]> ∅;
     state_config :=
       <["initial_state" :=
           {| sd_history := [];
              sd_terminal := false;
              sd_valid_transitions := demo_transitions;
              sd_default_transition := "no" |}]>
         (<["terminal_state" :=
              {| sd_history := [ {| role := "system";
                                    content := " The session ends. " |} ];
                 sd_terminal := true;
                 sd_valid_transitions := ∅;
                 sd_default_transition := "no" |}]> ∅) |}.

Definition demo_world : World :=
  {| heap := <[0%nat := [ {| role := "user"; content := "Hello" |} ]]> ∅;
     visited_states := {["initial_state"]};
     draws := 0 |}.

Definition demo_state : State :=
  {| name := "initial_state"; history := 0%nat;
     format_vars := env_format_vars demo_env; turns := 0;
     valid_transitions := demo_transitions;
     default_transition := "no"; terminal := false |}.

(** Templates without fields: [format_map] returns the template. *)
Definition no_fields (template : string) (_ : gmap string string)
  : result string := Ok template.

Definition demo_advance (transition : string) : result State * World :=
  post_transition_processing (fun _ => 0%nat) no_fields (fun _ => false)
    demo_env demo_state transition "" demo_world.

(** The label ["yes"] leads to the terminal state: the old history keeps its
    one message and the new one has the scripted message appended. *)
Example demo_advance_yes :
  exists next w',
    demo_advance "yes" = (Ok next, w')
    /\ name next = "terminal_state" /\ turns next = 1
    /\ terminal next = true
    /\ heap w' !! history demo_state
       = Some [ {| role := "user"; content := "Hello" |} ]
    /\ heap w' !! history next
       = Some [ {| role := "user"; content := "Hello" |};
                {| role := "system"; content := "The session ends." |} ].
Proof. do 2 eexists. vm_compute. repeat split. Qed.

(** An unknown label falls back to the default ["no"], a self-loop. *)
Lemma C2_advance_witness :
  exists h,
    heap demo_world !! h = None
    /\ demo_advance "maybe"
       = (Ok {| name := name demo_state; history := h;
                format_vars := format_vars demo_state;
                turns := turns demo_state + 1;
                valid_transitions := valid_transitions demo_state;
                default_transition := default_transition demo_state;
                terminal := terminal demo_state |},
          set_heap (<[h := default [] (heap demo_world
                                         !! history demo_state)]>
                      (heap demo_world)) demo_world).
Proof.
  apply (proj1 (proj2 (proj2
           (C2_advance_turns (fun _ => 0%nat) no_fields (fun _ => false)
              demo_env demo_state "maybe" "" demo_world)))
           {| next_state := "initial_state" |});
    vm_compute; reflexivity.
Defined.

Example demo_advance_unknown_label :
  exists next w', demo_advance "maybe" = (Ok next, w')
                  /\ name next = "initial_state" /\ turns next = 1.
Proof. do 2 eexists. vm_compute. repeat split. Qed.

Lemma C4_history_witness :
  exists next w',
    demo_advance "yes" = (Ok next, w')
    /\ history next <> history demo_state
    /\ heap w' !! history demo_state
       = heap demo_world !! history demo_state.
Proof.
  destruct (demo_advance "yes") as [[next|e] w'] eqn:Hrun;
    [|vm_compute in Hrun; discriminate].
  exists next, w'. split; [reflexivity|].
  destruct (C4_history_not_aliased (fun _ => 0%nat) no_fields
              (fun _ => false) demo_env demo_state "yes" "" demo_world
              next w') as [Hother _].
  - vm_compute. eauto.
  - exact Hrun.
  - destruct (Hother {| next_state := "terminal_state" |})
      as (Hne & Hkept & _).
    + vm_compute. reflexivity.
    + vm_compute. discriminate.
    + split; [exact Hne | exact Hkept].
Defined.

End EnvironmentSpec.

(** * Further properties *)

(** ** The queues as a store of jobs *)

Module TrajectoryQueueFacts.
Import TrajectoryQueue TrajectoryQueueSpec.

(** *** Reading and writing the ordered dict *)

Lemma lookup_store_queue_eq d key q0 q :
  lookup_queue d key = Some q0 ->
  lookup_queue (store_queue d key q) key = Some q.
Proof.
  induction d as [|[k q1] d IH]; simpl; [done|].
  destruct (String.eqb_spec k key) as [->|Hne]; intros H; simpl.
  - by rewrite String.eqb_refl.
  - apply String.eqb_neq in Hne. rewrite Hne. by apply IH.
Qed.

Lemma lookup_store_queue_ne d key key' q :
  key' <> key ->
  lookup_queue (store_queue d key q) key' = lookup_queue d key'.
Proof.
  intros Hne. induction d as [|[k q1] d IH]; simpl; [done|].
  destruct (String.eqb_spec k key) as [->|Hk]; simpl.
  - destruct (String.eqb_spec key key'); [congruence | done].
  - by rewrite IH.
Qed.

Lemma keys_store_queue d key q :
  map fst (store_queue d key q) = map fst d.
Proof.
  induction d as [|[k q1] d IH]; simpl; [done|].
  destruct (String.eqb k key); simpl; [done | by rewrite IH].
Qed.

Lemma lookup_queue_snoc (d : queues) key q key' :
  lookup_queue (d ++ [(key, q)])%list key'
  = match lookup_queue d key' with
    | Some q' => Some q'
    | None => if String.eqb key key' then Some q else None
    end.
Proof.
  induction d as [|[k q1] d IH]; simpl; [done|].
  by destruct (String.eqb k key').
Qed.

Lemma lookup_queue_None d key :
  lookup_queue d key = None <-> key ∉ map fst d.
Proof.
  induction d as [|[k q1] d IH]; simpl.
  - split; [intros _ H; by apply elem_of_nil in H | done].
  - rewrite not_elem_of_cons.
    destruct (String.eqb_spec k key) as [->|Hne].
    + split; [done | intros [? _]; done].
    + rewrite IH. split; [by intros ? | by intros [_ ?]].
Qed.

Lemma num_trajectories_store_queue d key q0 q :
  lookup_queue d key = Some q0 ->
  (num_trajectories (store_queue d key q) + length q0
   = num_trajectories d + length q)%nat.
Proof.
  unfold num_trajectories.
  induction d as [|[k q1] d IH]; simpl; [done|].
  destruct (String.eqb k key); simpl.
  - intros [= ->]. lia.
  - intros H. specialize (IH H). lia.
Qed.

Lemma num_trajectories_snoc (d : queues) key q :
  num_trajectories (d ++ [(key, q)])%list
  = (num_trajectories d + length q)%nat.
Proof.
  unfold num_trajectories. rewrite map_app, list_sum_app. simpl. lia.
Qed.

(** *** [put] *)

Lemma put_unfold d key subenv :
  put d key subenv
  = match lookup_queue d key with
    | Some q => store_queue d key (q ++ [subenv])%list
    | None => (d ++ [(key, [subenv])])%list
    end.
Proof.
  unfold put. destruct (lookup_queue d key) as [q|] eqn:Hl.
  - by rewrite Hl.
  - rewrite lookup_queue_snoc, Hl, String.eqb_refl. simpl.
    induction d as [|[k q1] d IH]; simpl in *.
    + by rewrite String.eqb_refl.
    + destruct (String.eqb k key); [done|]. by rewrite IH.
Qed.

(** X1.  [put] appends the job at the tail of the queue of its key, which is
    created empty when the key is new, and leaves the queue of every other
    key as it was. *)
Theorem put_lookup (d : queues) (key : string) (subenv : Subenv) :
  lookup_queue (put d key subenv) key
  = Some (default [] (lookup_queue d key) ++ [subenv])%list
  /\ forall key', key' <> key ->
                  lookup_queue (put d key subenv) key'
                  = lookup_queue d key'.
Proof.
  rewrite put_unfold. destruct (lookup_queue d key) as [q|] eqn:Hl.
  - split; [by erewrite lookup_store_queue_eq|].
    intros key' Hne. by apply lookup_store_queue_ne.
  - split.
    + by rewrite lookup_queue_snoc, Hl, String.eqb_refl.
    + intros key' Hne. rewrite lookup_queue_snoc.
      destruct (lookup_queue d key'); [done|].
      destruct (String.eqb_spec key key'); [congruence | done].
Qed.

Lemma put_lookup_witness :
  lookup_queue (put two_keys "smoking_1" (job "smoking" "1" 2)) "smoking_0"
  = lookup_queue two_keys "smoking_0".
Proof.
  apply (proj2 (put_lookup two_keys "smoking_1" (job "smoking" "1" 2))).
  discriminate.
Defined.

Lemma put_keys (d : queues) key subenv :
  map fst (put d key subenv)
  = (if decide (key ∈ map fst d) then map fst d
     else (map fst d ++ [key])%list).
Proof.
  rewrite put_unfold. destruct (lookup_queue d key) as [q|] eqn:Hl.
  - rewrite decide_True by (by eapply lookup_queue_key).
    apply keys_store_queue.
  - rewrite decide_False by (by apply lookup_queue_None).
    by rewrite map_app.
Qed.

Lemma put_keys_NoDup (d : queues) key subenv :
  NoDup (map fst d) -> NoDup (map fst (put d key subenv)).
Proof.
  intros Hnd. rewrite put_keys. destruct (decide _) as [|Hnin]; [done|].
  apply NoDup_app. split; [done|]. split; [|apply NoDup_singleton].
  intros x Hx ->%list_elem_of_singleton. done.
Qed.

Lemma put_num_trajectories (d : queues) key subenv :
  num_trajectories (put d key subenv) = S (num_trajectories d).
Proof.
  rewrite put_unfold. destruct (lookup_queue d key) as [q|] eqn:Hl.
  - pose proof (num_trajectories_store_queue d key q
                  (q ++ [subenv])%list Hl) as Hn.
    rewrite length_app in Hn. simpl in Hn. lia.
  - rewrite num_trajectories_snoc. simpl. lia.
Qed.

(** X2.  [put] keeps the keys distinct and in their order of first
    insertion: a known key leaves the key list unchanged, a new key goes to
    its end.  The number of queued trajectories grows by one. *)
Theorem put_keys_and_count (d : queues) (key : string) (subenv : Subenv) :
  map fst (put d key subenv)
  = (if decide (key ∈ map fst d) then map fst d
     else (map fst d ++ [key])%list)
  /\ (NoDup (map fst d) -> NoDup (map fst (put d key subenv)))
  /\ num_trajectories (put d key subenv) = S (num_trajectories d).
Proof.
  split; [apply put_keys|]. split; [apply put_keys_NoDup|].
  apply put_num_trajectories.
Qed.

Lemma put_keys_and_count_witness :
  NoDup (map fst (put two_keys "smoking_2" (job "smoking" "2" 0))).
Proof.
  apply (put_keys_and_count two_keys "smoking_2" (job "smoking" "2" 0)).
  apply (bool_decide_unpack _). by vm_compute.
Defined.

(** *** [get] *)

(** A call of [get] either finds nothing, or takes the head of one queue. *)
Lemma get_cases d preferred :
  (non_empty_queues d = [] /\ get d preferred = (Exhausted, d))
  \/ exists subenv key rest,
       lookup_queue d key = Some (subenv :: rest)
       /\ get d preferred = (Got subenv key, store_queue d key rest).
Proof.
  unfold get. destruct (non_empty_queues d) as [|largest keys] eqn:Hne;
    [by left|]. right.
  set (key := match preferred with
              | Some k => if decide (k ∈ largest :: keys) then k
                          else largest
              | None => largest
              end).
  assert (key ∈ non_empty_queues d) as Hin.
  { rewrite Hne. subst key. destruct preferred as [k|].
    - destruct (decide (k ∈ largest :: keys)); [done|].
      apply elem_of_cons; by left.
    - apply elem_of_cons; by left. }
  apply elem_of_non_empty_queues, qsize_pos_lookup in Hin
    as (subenv & rest & Hl).
  exists subenv, key, rest. by rewrite Hl.
Qed.

Lemma non_empty_queues_nil d :
  non_empty_queues d = [] <-> forall key, qsize d key = 0%nat.
Proof.
  split.
  - intros Hnil key. destruct (decide (0 < qsize d key)%nat) as [Hpos|];
      [|lia].
    apply elem_of_non_empty_queues in Hpos. rewrite Hnil in Hpos.
    by apply elem_of_nil in Hpos.
  - intros Hall. destruct (non_empty_queues d) as [|k keys] eqn:Hne;
      [done|].
    assert (k ∈ non_empty_queues d) as Hk
      by (rewrite Hne; apply elem_of_cons; by left).
    apply elem_of_non_empty_queues in Hk. rewrite Hall in Hk. lia.
Qed.

Lemma lookup_queue_entry (d : queues) key q :
  NoDup (map fst d) -> (key, q) ∈ d -> lookup_queue d key = Some q.
Proof.
  induction d as [|[k q1] d IH]; simpl; intros Hnd Hin.
  - by apply elem_of_nil in Hin.
  - apply NoDup_cons in Hnd as [Hk Hnd].
    apply elem_of_cons in Hin as [[= -> ->]|Hin].
    + by rewrite String.eqb_refl.
    + destruct (String.eqb_spec k key) as [->|_]; [|by apply IH].
      destruct Hk. apply (list_elem_of_fmap_2 fst) in Hin. done.
Qed.

Lemma num_trajectories_zero (d : queues) :
  NoDup (map fst d) ->
  num_trajectories d = 0%nat <-> forall key, qsize d key = 0%nat.
Proof.
  intros Hnd. unfold num_trajectories. split.
  - intros Hsum key. unfold qsize.
    destruct (lookup_queue d key) as [q|] eqn:Hl; [|done].
    clear Hnd. induction d as [|[k q1] d IH]; simpl in *; [done|].
    destruct (String.eqb k key).
    + injection Hl as ->. lia.
    + apply IH; [lia | done].
  - intros Hall. induction d as [|[k q1] d IH]; simpl; [done|].
    pose proof (Hall k) as Hk. unfold qsize in Hk. simpl in Hk.
    rewrite String.eqb_refl in Hk. rewrite Hk. simpl.
    apply NoDup_cons in Hnd as [Hnin Hnd]. apply IH; [done|].
    intros key. specialize (Hall key). unfold qsize in *. simpl in Hall.
    destruct (String.eqb_spec k key) as [->|_]; [|done].
    assert (lookup_queue d key = None) as -> by by apply lookup_queue_None.
    done.
Qed.

(** X3.  A call of [get] that returns a job removes exactly that job, the
    oldest of its key: the key's queue becomes its tail, every other queue
    and the key list are unchanged, and the number of queued trajectories
    drops by one. *)
Theorem get_removes_one_job (d d' : queues) (preferred : option string)
    (subenv : Subenv) (key : string) :
  get d preferred = (Got subenv key, d') ->
  exists rest,
    lookup_queue d key = Some (subenv :: rest)
    /\ lookup_queue d' key = Some rest
    /\ (forall key', key' <> key ->
                     lookup_queue d' key' = lookup_queue d key')
    /\ map fst d' = map fst d
    /\ num_trajectories d = S (num_trajectories d').
Proof.
  intros Hget.
  destruct (get_cases d preferred) as [[_ H]|(s & k & rest & Hl & H)];
    rewrite H in Hget; [done|].
  injection Hget as -> -> <-. exists rest. split; [done|].
  split; [by eapply lookup_store_queue_eq|].
  split; [intros key' Hne; by apply lookup_store_queue_ne|].
  split; [apply keys_store_queue|].
  pose proof (num_trajectories_store_queue d key _ rest Hl) as Hn.
  simpl in Hn. lia.
Qed.

Lemma get_removes_one_job_witness :
  exists rest,
    lookup_queue two_keys "smoking_1"
    = Some (job "smoking" "1" 0 :: rest)
    /\ num_trajectories two_keys = 3%nat.
Proof.
  destruct (get_removes_one_job two_keys
              [("smoking_0", [job "smoking" "0" 0]);
               ("smoking_1", [job "smoking" "1" 1])]
              None (job "smoking" "1" 0) "smoking_1" eq_refl)
    as (rest & Hl & _ & _ & _ & Hn).
  exists rest. split; [exact Hl | exact Hn].
Defined.

(** X4.  With distinct keys, [get] answers with the exhausted sentinel
    exactly when no trajectory is queued, and then leaves the queues as they
    are. *)
Theorem get_exhausted_iff_empty (d : queues) (preferred : option string) :
  NoDup (map fst d) ->
  (get d preferred = (Exhausted, d) <-> num_trajectories d = 0%nat)
  /\ (forall d', get d preferred = (Exhausted, d') -> d' = d).
Proof.
  intros Hnd. rewrite (num_trajectories_zero d Hnd).
  rewrite <- non_empty_queues_nil.
  destruct (get_cases d preferred) as [[Hnil H]|(s & k & rest & Hl & H)];
    rewrite H.
  - split; [done|]. by intros d' [= <-].
  - split; [|done]. split; [done|]. intros Hnil.
    assert (k ∈ non_empty_queues d) as Hk.
    { apply elem_of_non_empty_queues. unfold qsize. rewrite Hl.
      simpl. lia. }
    rewrite Hnil in Hk. by apply elem_of_nil in Hk.
Qed.

Lemma get_exhausted_witness :
  get [("smoking_0", [])] (Some "smoking_0")
  = (Exhausted, [("smoking_0", [])]).
Proof.
  apply (get_exhausted_iff_empty [("smoking_0", [])] (Some "smoking_0")).
  - apply NoDup_singleton.
  - reflexivity.
Defined.

(** *** Sequences of [get] *)

(** All queued jobs, key after key. *)
Definition queued (d : queues) : list Subenv := concat (map snd d).

(** A sequence of calls of [get], one per element of [preferred]: the jobs
    the calls return, in order, and the queues they leave.  The preferred
    keys are arbitrary, as are those of consumers that take turns. *)
Fixpoint get_each (preferred : list (option string)) (d : queues)
  : list Subenv * queues :=
  match preferred with
  | [] => ([], d)
  | p :: preferred' =>
      match get d p with
      | (Got subenv _, d') =>
          let r := get_each preferred' d' in (subenv :: r.1, r.2)
      | (_, d') => get_each preferred' d'
      end
  end.

Lemma queued_store_queue d key subenv rest :
  lookup_queue d key = Some (subenv :: rest) ->
  queued d ≡ₚ subenv :: queued (store_queue d key rest).
Proof.
  unfold queued. induction d as [|[k q] d IH]; simpl; [done|].
  destruct (String.eqb k key); simpl.
  - by intros [= ->].
  - intros Hl. rewrite (IH Hl). simpl.
    by rewrite Permutation_middle.
Qed.

Lemma length_queued d : length (queued d) = num_trajectories d.
Proof.
  unfold queued, num_trajectories.
  induction d as [|[k q] d IH]; simpl; [done|].
  by rewrite length_app, IH.
Qed.

(** X5.  No sequence of calls of [get] loses or duplicates a job: the jobs
    returned together with the jobs still queued are a rearrangement of the
    jobs queued at the start.  With distinct keys and at least as many calls
    as queued jobs, every job is returned and nothing is left. *)
Theorem get_each_conserves_jobs (preferred : list (option string))
    (d : queues) :
  ((get_each preferred d).1 ++ queued (get_each preferred d).2)%list
    ≡ₚ queued d
  /\ (NoDup (map fst d) ->
      (num_trajectories d <= length preferred)%nat ->
      (get_each preferred d).1 ≡ₚ queued d
      /\ num_trajectories (get_each preferred d).2 = 0%nat).
Proof.
  assert (forall preferred d,
             ((get_each preferred d).1
                ++ queued (get_each preferred d).2)%list ≡ₚ queued d)
    as Hcons.
  { clear. intros preferred.
    induction preferred as [|p preferred IH]; intros d; simpl; [done|].
    destruct (get_cases d p) as [[_ H]|(s & k & rest & Hl & H)];
      rewrite H; simpl.
    - apply IH.
    - rewrite (queued_store_queue d k s rest Hl). by rewrite IH. }
  split; [apply Hcons|].
  intros Hnd Hlen.
  assert (num_trajectories (get_each preferred d).2 = 0%nat) as Hzero.
  { revert d Hnd Hlen.
    induction preferred as [|p preferred IH]; intros d Hnd Hlen; simpl.
    - simpl in Hlen. lia.
    - destruct (get_cases d p) as [[Hnil H]|(s & k & rest & Hl & H)];
        rewrite H; simpl.
      + assert (num_trajectories d = 0%nat) as Hd0.
        { apply (num_trajectories_zero d Hnd).
          by apply non_empty_queues_nil. }
        apply IH; [done | lia].
      + pose proof (num_trajectories_store_queue d k _ rest Hl) as Hn.
        simpl in Hn, Hlen.
        apply IH; [by rewrite keys_store_queue | lia]. }
  split; [|done].
  pose proof (Hcons preferred d) as Hperm.
  assert (queued (get_each preferred d).2 = []) as Hq.
  { apply length_zero_iff_nil. by rewrite length_queued. }
  rewrite Hq, app_nil_r in Hperm. done.
Qed.

Lemma get_each_conserves_witness :
  (get_each [None; Some "smoking_0"; None] two_keys).1 ≡ₚ queued two_keys.
Proof.
  apply (get_each_conserves_jobs [None; Some "smoking_0"; None] two_keys).
  - apply (bool_decide_unpack _). by vm_compute.
  - vm_compute. lia.
Defined.

(** *** The order of [non_empty_queues] *)

Section SortFacts.
Variable size : string -> nat.

Lemma insert_desc_perm x l : insert_desc size x l ≡ₚ x :: l.
Proof.
  induction l as [|y l IH]; simpl; [done|].
  destruct (size y <=? size x)%nat; [done|].
  rewrite IH. apply Permutation_swap.
Qed.

Lemma sort_desc_perm l : sort_desc size l ≡ₚ l.
Proof.
  induction l as [|x l IH]; simpl; [done|].
  by rewrite insert_desc_perm, IH.
Qed.

Lemma insert_desc_sorted x l :
  StronglySorted (fun a b => (size b <= size a)%nat) l ->
  StronglySorted (fun a b => (size b <= size a)%nat) (insert_desc size x l).
Proof.
  induction 1 as [|y l Hs IH Hall]; simpl.
  - repeat constructor.
  - destruct (Nat.leb_spec (size y) (size x)).
    + constructor; [by constructor|]. constructor; [done|].
      eapply Forall_impl; [exact Hall|]. simpl. intros z Hz. lia.
    + constructor; [done|]. rewrite insert_desc_perm.
      constructor; [lia | done].
Qed.

Lemma sort_desc_sorted l :
  StronglySorted (fun a b => (size b <= size a)%nat) (sort_desc size l).
Proof.
  induction l as [|x l IH]; simpl; [constructor|].
  by apply insert_desc_sorted.
Qed.

(** The sort is stable: the keys of any one size keep their order. *)
Lemma insert_desc_stable n x l :
  filter (fun y => size y = n) (insert_desc size x l)
  = filter (fun y => size y = n) (x :: l).
Proof.
  induction l as [|y l IH]; simpl; [done|].
  destruct (Nat.leb_spec (size y) (size x)) as [Hle|Hlt]; [done|].
  rewrite filter_cons, IH, !filter_cons.
  destruct (decide (size y = n)) as [Hy|Hy];
    destruct (decide (size x = n)) as [Hx|Hx]; try done. lia.
Qed.

Lemma sort_desc_stable n l :
  filter (fun y => size y = n) (sort_desc size l)
  = filter (fun y => size y = n) l.
Proof.
  induction l as [|x l IH]; simpl; [done|].
  by rewrite insert_desc_stable, !filter_cons, IH.
Qed.

End SortFacts.

(** X6.  [non_empty_queues] lists exactly the keys whose queue holds a job,
    from the largest backlog to the smallest; keys with equal backlogs stay
    in the order in which the keys were first inserted, and a key appears
    once when the dict's keys are distinct. *)
Theorem non_empty_queues_sorted_stable (d : queues) :
  (forall key, key ∈ non_empty_queues d <-> (0 < qsize d key)%nat)
  /\ StronglySorted (fun a b => (qsize d b <= qsize d a)%nat)
                    (non_empty_queues d)
  /\ (forall n,
        filter (fun key => qsize d key = n) (non_empty_queues d)
        = filter (fun key => qsize d key = n)
                 (filter (fun key => (0 < qsize d key)%nat) (map fst d)))
  /\ (NoDup (map fst d) -> NoDup (non_empty_queues d)).
Proof.
  split; [apply elem_of_non_empty_queues|]. unfold non_empty_queues.
  split; [apply sort_desc_sorted|]. split; [intros n; apply sort_desc_stable|].
  intros Hnd. rewrite sort_desc_perm. by apply NoDup_filter.
Qed.

Lemma non_empty_queues_witness : NoDup (non_empty_queues two_keys).
Proof.
  apply (non_empty_queues_sorted_stable two_keys).
  apply (bool_decide_unpack _). by vm_compute.
Defined.

(** *** Choosing sub-environments over several iterations *)

Section Choice.
Context {A : Type}.
Variable shuffle : list A -> list A.

(** The sequential choice, read at the positions of the id list: the [i]-th
    chosen id is the one at [(iter_step * alloc + i) mod total]. *)
Lemma sequential_choice_lookup (iter_step alloc : Z) (eval : bool)
    (subenv_ids : list A) :
  let n := if eval then 10 else alloc in
  let total := Z.of_nat (length subenv_ids) in
  1 <= n <= total ->
  exists chosen,
    choose_subenv_ids shuffle "sequential" iter_step alloc eval subenv_ids
    = Ok chosen
    /\ length chosen = Z.to_nat n
    /\ forall i, (i < Z.to_nat n)%nat ->
                 chosen !! i
                 = subenv_ids
                     !! Z.to_nat ((iter_step * alloc + Z.of_nat i)
                                    mod total).
Proof.
  intros n total Hn. unfold choose_subenv_ids. simpl. fold n total.
  destruct (Z.eqb_spec total 0) as [?|Ht0]; [lia|].
  assert (0 < total) as Htpos by lia.
  pose proof (Z.mod_pos_bound (iter_step * alloc) total Htpos) as Hc.
  assert (forall i, (iter_step * alloc + i) mod total
                    = ((iter_step * alloc) mod total + i) mod total)
    as Hshift.
  { intros i. rewrite Zplus_mod_idemp_l. done. }
  set (c := (iter_step * alloc) mod total) in *.
  assert (length subenv_ids = Z.to_nat total) as Hlen by (unfold total; lia).
  destruct (Z_lt_le_dec (c + n) total) as [Hlt|Hge].
  - rewrite (Z.mod_small (c + n)) by lia.
    destruct (Z.gtb_spec (c + n) c) as [_|?]; [|lia].
    eexists; split; [reflexivity|]. unfold slice. split.
    + rewrite length_take, length_drop. lia.
    + intros i Hi. rewrite lookup_take_lt, lookup_drop by lia.
      rewrite Hshift, Z.mod_small by lia. f_equal. lia.
  - assert ((c + n) mod total = c + n - total) as ->.
    { symmetry. apply (Z.mod_unique _ _ 1); lia. }
    destruct (Z.gtb_spec (c + n - total) c) as [?|_]; [lia|].
    eexists; split; [reflexivity|]. split.
    + rewrite length_app, length_take, length_drop. lia.
    + intros i Hi. rewrite Hshift.
      destruct (Z_lt_le_dec (c + Z.of_nat i) total) as [Hi'|Hi'].
      * rewrite lookup_app_l by (rewrite length_drop; lia).
        rewrite lookup_drop, Z.mod_small by lia. f_equal. lia.
      * rewrite lookup_app_r by (rewrite length_drop; lia).
        rewrite length_drop, lookup_take_lt by lia. f_equal.
        assert ((c + Z.of_nat i) mod total = c + Z.of_nat i - total) as ->.
        { symmetry. apply (Z.mod_unique _ _ 1); lia. }
        lia.
Qed.

(** The ids chosen by the training iterations [0], [1], ..., [k - 1], one
    window after the other. *)
Definition sequential_rounds (alloc : Z) (subenv_ids : list A) (k : nat)
  : result (list A) :=
  for_each (fun i chosen_so_far =>
              chosen ← choose_subenv_ids shuffle "sequential" (Z.of_nat i)
                         alloc false subenv_ids;
              Ok (chosen_so_far ++ chosen)%list)
           (seq 0 k) [].

(** X7.  In training with an allocation [w], [1 <= w <= total], the windows
    of consecutive iterations tile the id list cyclically: the windows of
    the first [k] iterations, put one after the other, hold [k * w] ids, the
    [p]-th of which is the id at position [p mod total].  Hence every
    sub-environment is chosen at least [(k * w) / total] times. *)
Theorem sequential_rounds_tile (alloc : Z) (subenv_ids : list A) (k : nat) :
  let w := Z.to_nat alloc in
  let total := length subenv_ids in
  1 <= alloc <= Z.of_nat total ->
  exists chosen,
    sequential_rounds alloc subenv_ids k = Ok chosen
    /\ length chosen = (k * w)%nat
    /\ (forall p, (p < k * w)%nat ->
                  chosen !! p = subenv_ids !! (p mod total)%nat)
    /\ (forall j m, (j < total)%nat -> (m < (k * w) / total)%nat ->
                    chosen !! (j + m * total)%nat = subenv_ids !! j).
Proof.
  intros w total Hw.
  assert (exists chosen,
             sequential_rounds alloc subenv_ids k = Ok chosen
             /\ length chosen = (k * w)%nat
             /\ (forall p, (p < k * w)%nat ->
                           chosen !! p = subenv_ids !! (p mod total)%nat))
    as (chosen & Hrun & Hlen & Hlookup).
  { unfold sequential_rounds. induction k as [|k IH].
    - exists []. split; [done|]. split; [done|]. intros p Hp. lia.
    - destruct IH as (before & Hrun & Hlen & Hlookup).
      destruct (sequential_choice_lookup (Z.of_nat k) alloc false
                  subenv_ids Hw) as (window & Hwin & Hwlen & Hwlookup).
      exists (before ++ window)%list. rewrite seq_S, for_each_app, Hrun.
      simpl. rewrite Hwin. simpl. split; [done|]. split.
      + rewrite length_app, Hlen, Hwlen. fold w. lia.
      + intros p Hp. destruct (decide (p < k * w)%nat) as [Hp'|Hp'].
        * rewrite lookup_app_l by lia. by apply Hlookup.
        * rewrite lookup_app_r by lia. rewrite Hlen.
          rewrite Hwlookup by (fold w; lia). f_equal.
          replace (Z.of_nat k * alloc + Z.of_nat (p - k * w))
            with (Z.of_nat p) by (unfold w; nia).
          fold total. rewrite <- Nat2Z.inj_mod. lia. }
  exists chosen. split; [done|]. split; [done|]. split; [done|].
  intros j m Hj Hm.
  assert (total <> 0)%nat as Ht by lia.
  assert ((m + 1) * total <= k * w)%nat as Hbound.
  { pose proof (Nat.Div0.mul_div_le (k * w) total). nia. }
  rewrite Hlookup by nia. f_equal.
  rewrite Nat.Div0.mod_add. by apply Nat.mod_small.
Qed.

(** X8.  Whatever the scheme, and with a shuffle that only rearranges, an
    iteration chooses no sub-environment twice (when the ids are distinct),
    only ids of the environment, and never more ids than there are. *)
Theorem choice_without_repetition (subenv_choice_scheme : string)
    (iter_step alloc : Z) (eval : bool) (subenv_ids chosen : list A) :
  (forall l, shuffle l ≡ₚ l) ->
  choose_subenv_ids shuffle subenv_choice_scheme iter_step alloc eval
                    subenv_ids
  = Ok chosen ->
  chosen ⊆+ subenv_ids
  /\ (forall x, x ∈ chosen -> x ∈ subenv_ids)
  /\ (length chosen <= length subenv_ids)%nat
  /\ (NoDup subenv_ids -> NoDup chosen).
Proof.
  intros Hshuffle Hrun.
  assert (chosen ⊆+ subenv_ids) as Hsub.
  { unfold choose_subenv_ids in Hrun.
    destruct (String.eqb subenv_choice_scheme "fixed").
    { injection Hrun as <-. unfold slice_to.
      destruct (_ <? 0); apply submseteq_take. }
    destruct (String.eqb subenv_choice_scheme "random").
    { injection Hrun as <-. rewrite <- (Hshuffle subenv_ids) at 2.
      unfold slice_to. destruct (_ <? 0); apply submseteq_take. }
    destruct (String.eqb subenv_choice_scheme "sequential"); [|done].
    destruct (Z.of_nat (length subenv_ids) =? 0); [done|].
    set (cz := (iter_step * alloc) mod Z.of_nat (length subenv_ids)) in *.
    set (fz := (cz + (if eval then 10 else alloc))
                 mod Z.of_nat (length subenv_ids)) in *.
    destruct (Z.gtb_spec fz cz) as [Hgt|Hle]; injection Hrun as <-.
    - unfold slice. etrans; [apply submseteq_take|].
      apply sublist_submseteq, sublist_drop.
    - assert (Z.to_nat fz <= Z.to_nat cz)%nat as Hfc by lia.
      rewrite Permutation_app_comm. apply sublist_submseteq.
      rewrite <- (take_drop (Z.to_nat fz) subenv_ids) at 3.
      apply sublist_app; [done|].
      replace (Z.to_nat cz)
        with (Z.to_nat fz + (Z.to_nat cz - Z.to_nat fz))%nat by lia.
      rewrite <- drop_drop. apply sublist_drop. }
  split; [done|]. split; [|split].
  - intros x Hx. by eapply elem_of_submseteq.
  - by apply submseteq_length.
  - intros Hnd. apply submseteq_Permutation in Hsub as [rest Hperm].
    rewrite Hperm in Hnd. by apply NoDup_app in Hnd as [? _].
Qed.

End Choice.

Lemma sequential_rounds_witness :
  exists chosen,
    sequential_rounds id 3 [0; 1; 2; 3; 4; 5; 6] 5 = Ok chosen
    /\ length chosen = 15%nat.
Proof.
  destruct (sequential_rounds_tile id 3 [0; 1; 2; 3; 4; 5; 6] 5)
    as (chosen & Hrun & Hlen & _).
  - simpl. lia.
  - exists chosen. split; [exact Hrun | exact Hlen].
Defined.

Lemma choice_without_repetition_witness :
  NoDup [5; 6; 0].
Proof.
  apply (choice_without_repetition id "sequential" 4 3 false
           [0; 1; 2; 3; 4; 5; 6] [5; 6; 0]).
  - done.
  - reflexivity.
  - apply (bool_decide_unpack _). by vm_compute.
Defined.

(** *** The allocation loop *)

Lemma startswith_split_head env_name :
  startswith env_name (split_head "_" env_name) = true.
Proof.
  unfold startswith. induction env_name as [|c s IH]; simpl; [done|].
  destruct (Ascii.eqb c "_"); simpl; [done|].
  by destruct (ascii_dec c c).
Qed.

Lemma tot_subenvs_by_prefix_dom args total env_prefix :
  is_Some (tot_subenvs_by_prefix args total !! env_prefix)
  <-> env_prefix ∈ map fst (env_fractions args).
Proof.
  unfold tot_subenvs_by_prefix.
  assert (forall l (d : gmap string Z),
             is_Some (fold_left
                        (fun d '(p, frac) =>
                           <[p := int_of (inject_Z total * frac)]> d) l d
                        !! env_prefix)
             <-> env_prefix ∈ map fst l \/ is_Some (d !! env_prefix))
    as Hfold.
  { induction l as [|[p frac] l IH]; intros d; simpl.
    - rewrite elem_of_nil. tauto.
    - rewrite IH, elem_of_cons.
      destruct (decide (env_prefix = p)) as [->|Hne].
      + rewrite lookup_insert_eq. split; [intros _|]; eauto.
      + rewrite lookup_insert_ne by done. tauto. }
  rewrite Hfold, lookup_empty. split; [intros [?|[? ?]]; done | by left].
Qed.

(** The inner loop for one prefix only extends the list of that prefix, by
    the environments that start with it. *)
Lemma envs_by_prefix_inner env_prefix training_envs
    (d : gmap string (list string)) p :
  fold_left (fun (d : gmap string (list string)) env_name =>
               if startswith env_name env_prefix
               then <[env_prefix :=
                        ((d !!! env_prefix) ++ [env_name])%list]> d
               else d)
            training_envs d !!! p
  = if decide (p = env_prefix)
    then ((d !!! env_prefix)
            ++ filter (fun e => startswith e env_prefix) training_envs)%list
    else d !!! p.
Proof.
  revert d.
  induction training_envs as [|e envs IH]; intros d; cbn [fold_left].
  - rewrite filter_nil.
    destruct (decide _) as [->|]; [by rewrite app_nil_r | done].
  - rewrite IH. destruct (startswith e env_prefix) eqn:Hs.
    + rewrite filter_cons_True by (by apply Is_true_true).
      destruct (decide (p = env_prefix)) as [->|Hne].
      * rewrite lookup_total_insert_eq. by rewrite <- app_assoc.
      * by rewrite lookup_total_insert_ne.
    + rewrite filter_cons_False; [done|]. by apply Is_true_false.
Qed.

Lemma envs_by_prefix_elem args training_envs env_name env_prefix :
  env_prefix ∈ map fst (env_fractions args) ->
  env_name ∈ training_envs ->
  startswith env_name env_prefix = true ->
  env_name ∈ envs_by_prefix args training_envs !!! env_prefix.
Proof.
  intros Hp He Hs. unfold envs_by_prefix.
  assert (forall prefixes (d : gmap string (list string)),
             (env_prefix ∈ prefixes \/ env_name ∈ d !!! env_prefix) ->
             env_name
               ∈ fold_left
                   (fun d p =>
                      fold_left
                        (fun (d : gmap string (list string)) e =>
                           if startswith e p
                           then <[p := ((d !!! p) ++ [e])%list]> d
                           else d)
                        training_envs d)
                   prefixes d !!! env_prefix) as Hfold.
  { induction prefixes as [|p prefixes IH]; intros d Hd; simpl.
    - destruct Hd as [Hd|Hd]; [by apply elem_of_nil in Hd | done].
    - apply IH. rewrite envs_by_prefix_inner.
      destruct (decide (env_prefix = p)) as [->|Hne].
      + right. apply elem_of_app. right.
        apply list_elem_of_filter. split; [by apply Is_true_true | done].
      + destruct Hd as [Hd|Hd]; [|by right].
        apply elem_of_cons in Hd as [?|?]; [done | by left]. }
  apply Hfold. by left.
Qed.

(** The allocation of one environment, as the third loop computes it. *)
Definition alloc_of (args : EnvArgs) (training_envs : list string)
    (env_name : string) : result Z :=
  let total :=
    n_subenvs_to_sample_per_env args * Z.of_nat (length training_envs) in
  t ← getitem (tot_subenvs_by_prefix args total) (split_head "_" env_name);
  floordiv t (Z.of_nat (length (envs_by_prefix args training_envs
                                  !!! split_head "_" env_name))).

Lemma alloc_of_cases args training_envs env_name :
  env_name ∈ training_envs ->
  (split_head "_" env_name ∈ map fst (env_fractions args)
   /\ (exists t,
       tot_subenvs_by_prefix args
         (n_subenvs_to_sample_per_env args
          * Z.of_nat (length training_envs))
         !! split_head "_" env_name = Some t
       /\ (0 < length (envs_by_prefix args training_envs
                         !!! split_head "_" env_name))%nat
       /\ alloc_of args training_envs env_name
          = Ok (t / Z.of_nat (length (envs_by_prefix args training_envs
                                        !!! split_head "_" env_name)))))
  \/ ((split_head "_" env_name ∉ map fst (env_fractions args))
      /\ alloc_of args training_envs env_name
         = Raise (KeyError (split_head "_" env_name))).
Proof.
  intros Hin. unfold alloc_of, getitem.
  destruct (tot_subenvs_by_prefix _ _ !! _) as [t|] eqn:Ht.
  - left. assert (split_head "_" env_name ∈ map fst (env_fractions args))
      as Hp by (eapply (proj1 (tot_subenvs_by_prefix_dom args _ _)); eauto).
    split; [done|]. exists t. split; [done|].
    pose proof (envs_by_prefix_elem args training_envs env_name _ Hp Hin
                  (startswith_split_head env_name)) as Helem.
    assert (0 < length (envs_by_prefix args training_envs
                          !!! split_head "_" env_name))%nat as Hpos.
    { destruct (envs_by_prefix _ _ !!! _); [by apply elem_of_nil in Helem|].
      simpl. lia. }
    split; [done|]. simpl. unfold floordiv.
    destruct (Z.eqb_spec (Z.of_nat (length (envs_by_prefix args
                 training_envs !!! split_head "_" env_name))) 0); [lia|done].
  - right. split; [|done]. rewrite <- tot_subenvs_by_prefix_dom, Ht.
    by intros [? ?].
Qed.

(** A loop that binds each element to the value computed for it. *)
Lemma for_each_bind_insert {V} (f : string -> result V)
    (body : string -> gmap string V -> result (gmap string V)) :
  (forall x m, body x m = match f x with
                          | Ok v => Ok (<[x := v]> m)
                          | Raise e => Raise e
                          end) ->
  forall xs m,
    (exists pre x post e,
        xs = (pre ++ x :: post)%list
        /\ Forall (fun y => is_ok (f y) = true) pre
        /\ f x = Raise e /\ for_each body xs m = Raise e)
    \/ (exists m',
           for_each body xs m = Ok m'
           /\ (forall x, x ∈ xs -> exists v, f x = Ok v /\ m' !! x = Some v)
           /\ (forall k, k ∉ xs -> m' !! k = m !! k)).
Proof.
  intros Hbody. induction xs as [|x xs IH]; intros m.
  - right. exists m. split; [done|]. split; [|done].
    intros x Hx. by apply elem_of_nil in Hx.
  - simpl. rewrite Hbody. destruct (f x) as [v|e] eqn:Hf.
    + simpl. destruct (IH (<[x := v]> m))
        as [(pre & y & post & e & -> & Hpre & Hy & Hrun)
           |(m' & Hrun & Hbound & Hframe)].
      * left. exists (x :: pre), y, post, e. split; [done|].
        split; [constructor; [by rewrite Hf | done]|]. done.
      * right. exists m'. split; [done|]. split.
        -- intros k Hk. destruct (decide (k ∈ xs)) as [Hin|Hnin];
             [by apply Hbound|].
           apply elem_of_cons in Hk as [->|?]; [|done].
           exists v. split; [done|].
           by rewrite Hframe, lookup_insert_eq.
        -- intros k Hk. apply not_elem_of_cons in Hk as [Hne Hk].
           by rewrite Hframe, lookup_insert_ne.
    + left. exists [], x, xs, e. done.
Qed.

Lemma num_subenvs_body args training_envs env_name
    (num : gmap string Z) :
  (let env_prefix := split_head "_" env_name in
   t ← getitem (tot_subenvs_by_prefix args
                  (n_subenvs_to_sample_per_env args
                   * Z.of_nat (length training_envs))) env_prefix;
   num_subenvs ← floordiv t
     (Z.of_nat (length (envs_by_prefix args training_envs !!! env_prefix)));
   Ok (<[env_name := num_subenvs]> num))
  = match alloc_of args training_envs env_name with
    | Ok v => Ok (<[env_name := v]> num)
    | Raise e => Raise e
    end.
Proof.
  unfold alloc_of. simpl. destruct (getitem _ _) as [t|e]; simpl; [|done].
  by destruct (floordiv _ _).
Qed.

Lemma num_subenvs_run args training_envs :
  (exists pre x post e,
      training_envs = (pre ++ x :: post)%list
      /\ Forall (fun y => is_ok (alloc_of args training_envs y) = true) pre
      /\ alloc_of args training_envs x = Raise e
      /\ num_subenvs_per_iter_by_env args training_envs = Raise e)
  \/ (exists num,
         num_subenvs_per_iter_by_env args training_envs = Ok num
         /\ (forall x, x ∈ training_envs ->
                       exists v, alloc_of args training_envs x = Ok v
                                 /\ num !! x = Some v)
         /\ (forall k, k ∉ training_envs ->
                       num !! k = (∅ : gmap string Z) !! k)).
Proof.
  exact (for_each_bind_insert (alloc_of args training_envs) _
           (num_subenvs_body args training_envs) training_envs ∅).
Qed.

(** X9.  When the part of every training environment's name before the first
    underscore is a configured prefix, the allocation loop raises nothing
    and gives every environment the slots of its prefix divided (floor) by
    the number of training environments listed under that prefix, which is
    never zero. *)
Theorem allocation_defined (args : EnvArgs) (training_envs : list string) :
  (forall env_name, env_name ∈ training_envs ->
                    split_head "_" env_name ∈ map fst (env_fractions args)) ->
  exists num,
    num_subenvs_per_iter_by_env args training_envs = Ok num
    /\ forall env_name, env_name ∈ training_envs ->
         exists t,
           tot_subenvs_by_prefix args
             (n_subenvs_to_sample_per_env args
              * Z.of_nat (length training_envs))
             !! split_head "_" env_name = Some t
           /\ (0 < length (envs_by_prefix args training_envs
                             !!! split_head "_" env_name))%nat
           /\ num !! env_name
              = Some (t / Z.of_nat
                            (length (envs_by_prefix args training_envs
                                       !!! split_head "_" env_name))).
Proof.
  intros Hheads.
  destruct (num_subenvs_run args training_envs)
    as [(pre & x & post & e & Hsplit & _ & Hx & _)
       |(num & Hrun & Hbound & _)].
  - assert (x ∈ training_envs) as Hin.
    { rewrite Hsplit. apply elem_of_app. right. apply elem_of_cons.
      by left. }
    destruct (alloc_of_cases args training_envs x Hin)
      as [(_ & t & _ & _ & Hok)|[Hnot _]]; [congruence|].
    destruct Hnot. by apply Hheads.
  - exists num. split; [exact Hrun|]. intros env_name Hin.
    destruct (Hbound env_name Hin) as (v & Hv & Hnum).
    destruct (alloc_of_cases args training_envs env_name Hin)
      as [(_ & t & Ht & Hpos & Hok)|[Hnot _]].
    + exists t. split; [done|]. split; [done|]. congruence.
    + destruct Hnot. by apply Hheads.
Qed.

Lemma allocation_defined_witness :
  exists num,
    num_subenvs_per_iter_by_env two_prefix_args
      ["weak_smoking"; "normal_smoking"; "normal_drinking"] = Ok num.
Proof.
  destruct (allocation_defined two_prefix_args
              ["weak_smoking"; "normal_smoking"; "normal_drinking"])
    as (num & Hrun & _).
  - intros env_name Hin. apply (bool_decide_unpack _).
    repeat (apply elem_of_cons in Hin as [->|Hin]; [by vm_compute|]).
    by apply elem_of_nil in Hin.
  - exists num. exact Hrun.
Defined.

(** X10.  [_get_n_subenvs_to_sample_per_iter_by_env] raises nothing but a
    [KeyError], for the name head of a training environment that is not a
    configured prefix, or an [AssertionError]; it never divides by zero.
    The [KeyError] is raised for the first training environment whose head
    is not a configured prefix, so a table that relies on the wildcard ["*"]
    gives no allocation. *)
Theorem allocation_errors (args : EnvArgs) (training_envs : list string) :
  (forall e,
      _get_n_subenvs_to_sample_per_iter_by_env args training_envs = Raise e ->
      (exists env_name,
          env_name ∈ training_envs
          /\ (split_head "_" env_name ∉ map fst (env_fractions args))
          /\ e = KeyError (split_head "_" env_name))
      \/ exists msg, e = AssertionError msg)
  /\ (forall pre env_name post,
         training_envs = (pre ++ env_name :: post)%list ->
         Forall (fun y => split_head "_" y ∈ map fst (env_fractions args))
                pre ->
         split_head "_" env_name ∉ map fst (env_fractions args) ->
         _get_n_subenvs_to_sample_per_iter_by_env args training_envs
         = Raise (KeyError (split_head "_" env_name))).
Proof.
  unfold _get_n_subenvs_to_sample_per_iter_by_env.
  destruct (num_subenvs_run args training_envs)
    as [(pre & x & post & e & Hsplit & Hpre & Hx & Hrun)
       |(num & Hrun & Hbound & _)]; rewrite Hrun; simpl.
  - assert (x ∈ training_envs) as Hin.
    { rewrite Hsplit. apply elem_of_app. right. apply elem_of_cons.
      by left. }
    destruct (alloc_of_cases args training_envs x Hin)
      as [(_ & t & _ & _ & Hok)|[Hnot Hkey]]; [congruence|].
    assert (e = KeyError (split_head "_" x)) as -> by congruence.
    split.
    + intros e' [= <-]. left. by exists x.
    + intros pre' y post' Hsplit' Hpre' Hy. f_equal. f_equal.
      rewrite Hsplit in Hsplit'.
      assert (Forall (fun z => split_head "_" z
                                 ∈ map fst (env_fractions args)) pre)
        as Hpre2.
      { rewrite Forall_forall in Hpre |- *. intros z Hz.
        assert (z ∈ training_envs) as Hzin
          by (rewrite Hsplit; apply elem_of_app; by left).
        destruct (alloc_of_cases args training_envs z Hzin)
          as [(? & _)|[_ Hzr]]; [done|].
        specialize (Hpre z Hz). by rewrite Hzr in Hpre. }
      clear -Hsplit' Hpre2 Hpre' Hnot Hy.
      revert pre' Hsplit' Hpre'.
      induction Hpre2 as [|z pre Hz _ IH]; intros pre' Hsplit' Hpre'.
      * destruct pre' as [|z' pre']; simpl in Hsplit'.
        -- by injection Hsplit' as -> _.
        -- injection Hsplit' as -> _. apply Forall_cons in Hpre' as [? _].
           done.
      * destruct pre' as [|z' pre']; simpl in Hsplit'.
        -- injection Hsplit' as -> _. done.
        -- injection Hsplit' as -> Hrest.
           apply Forall_cons in Hpre' as [_ Hpre']. by apply (IH pre').
  - split.
    + intros e He. right.
      destruct (sum_values (tot_subenvs_by_prefix _ _) =? _);
        simpl in He; [|injection He as <-; eauto].
      destruct (sum_values num =? _); simpl in He; [done|].
      injection He as <-. eauto.
    + intros pre y post Hsplit _ Hy.
      assert (y ∈ training_envs) as Hin.
      { rewrite Hsplit. apply elem_of_app. right. apply elem_of_cons.
        by left. }
      destruct (Hbound y Hin) as (v & Hv & _).
      destruct (alloc_of_cases args training_envs y Hin)
        as [(? & _)|[_ Hr]]; [done | congruence].
Qed.

Lemma allocation_errors_witness :
  _get_n_subenvs_to_sample_per_iter_by_env wildcard_args ["weak_smoking"]
  = Raise (KeyError "weak").
Proof.
  apply (proj2 (allocation_errors wildcard_args ["weak_smoking"])
           [] "weak_smoking" []).
  - reflexivity.
  - constructor.
  - apply (bool_decide_unpack _). by vm_compute.
Defined.

(** Away from the missing key, the call ends in one of two ways only.  When
    the name head of every training environment is a configured prefix, the
    third loop returns an allocation that binds every training environment;
    the call returns it when the slots per prefix and the allocations both
    sum to [n_subenvs_to_sample_per_env * len(training_envs)], and stops in
    an [AssertionError] when one of the two sums differs. *)
Lemma allocation_exact_or_assert (args : EnvArgs)
    (training_envs : list string) :
  let total :=
    n_subenvs_to_sample_per_env args * Z.of_nat (length training_envs) in
  (forall env_name, env_name ∈ training_envs ->
                    split_head "_" env_name ∈ map fst (env_fractions args)) ->
  exists num,
    num_subenvs_per_iter_by_env args training_envs = Ok num
    /\ (forall env_name, env_name ∈ training_envs ->
                         is_Some (num !! env_name))
    /\ if (sum_values (tot_subenvs_by_prefix args total) =? total)
          && (sum_values num =? total)
       then _get_n_subenvs_to_sample_per_iter_by_env args training_envs
            = Ok num
       else exists msg,
           _get_n_subenvs_to_sample_per_iter_by_env args training_envs
           = Raise (AssertionError msg).
Proof.
  intros total Hheads.
  destruct (num_subenvs_run args training_envs)
    as [(pre & x & post & e & Hsplit & _ & Hx & _)
       |(num & Hrun & Hbound & _)].
  - assert (x ∈ training_envs) as Hin.
    { rewrite Hsplit. apply elem_of_app. right. apply elem_of_cons.
      by left. }
    destruct (alloc_of_cases args training_envs x Hin)
      as [(_ & t & _ & _ & Hok)|[Hnot _]]; [congruence|].
    destruct Hnot. by apply Hheads.
  - exists num. split; [exact Hrun|]. split.
    + intros env_name Hin. destruct (Hbound env_name Hin) as (v & _ & Hv).
      eauto.
    + unfold _get_n_subenvs_to_sample_per_iter_by_env. fold total.
      rewrite Hrun. simpl.
      destruct (sum_values (tot_subenvs_by_prefix args total) =? total);
        simpl; [|eauto].
      destruct (sum_values num =? total); simpl; eauto.
Qed.

Example allocation_exact_or_assert_passes :
  exists num,
    _get_n_subenvs_to_sample_per_iter_by_env two_prefix_args
      ["weak_smoking"; "normal_smoking"; "normal_drinking"] = Ok num
    /\ sum_values num = 4 * 3.
Proof.
  destruct (allocation_exact_or_assert two_prefix_args
              ["weak_smoking"; "normal_smoking"; "normal_drinking"])
    as (num & Hloop & _ & Hend).
  - intros env_name Hin. apply (bool_decide_unpack _).
    repeat (apply elem_of_cons in Hin as [->|Hin]; [by vm_compute|]).
    by apply elem_of_nil in Hin.
  - assert (num_subenvs_per_iter_by_env two_prefix_args
              ["weak_smoking"; "normal_smoking"; "normal_drinking"]
            = Ok (<["normal_drinking" := 3]> (<["normal_smoking" := 3]>
                    (<["weak_smoking" := 6]> ∅)))) as Hval
      by (vm_compute; reflexivity).
    rewrite Hval in Hloop. injection Hloop as <-.
    eexists. split; [exact Hend|]. vm_compute. reflexivity.
Qed.

(** *** [populate] *)



Definition fixed_args : EnvArgs :=
  {| env_fractions := [("weak", 1 # 2); ("normal", 1 # 2)];
     n_subenvs_to_sample_per_env := 2;
     n_trajs_to_sample_per_subenv := 3;
     subenv_choice_scheme := "fixed" |}.


(** Two of three sub-environments, three trajectories each. *)
Example populate_fixed :
  exists d',
    populate id fixed_args [("weak_smoking", ["0"; "1"; "2"])]
             (<["weak_smoking" := 2]> ∅) 0 false []
    = Ok d'
    /\ map fst d' = ["weak_smoking_0"; "weak_smoking_1"]
    /\ num_trajectories d' = 6%nat.
Proof. eexists. vm_compute. repeat split. Qed.

(** X12.  The key of a sub-environment does not determine the pair of
    environment name and id: moving an underscore-separated part from the
    id to the environment name gives the same key, so two different
    sub-environments can share one queue. *)
Theorem get_subenv_key_collision (env_name part subenv_id : string) :
  get_subenv_key (env_name +:+ "_" +:+ part) subenv_id
  = get_subenv_key env_name (part +:+ "_" +:+ subenv_id)
  /\ (env_name +:+ "_" +:+ part <> env_name).
Proof.
  unfold get_subenv_key. split.
  - by rewrite !OpenAIBackendSpec.append_assoc.
  - induction env_name as [|c s IH]; [done|].
    intros [= H]. by apply IH.
Qed.

End TrajectoryQueueFacts.

(** ** Conversations over several turns *)

Module EnvironmentFacts.
Import Environment EnvironmentSpec.

Section Methods.
Variable count_format_fields : string -> nat.
Variable format_map : string -> gmap string string -> result string.
Variable choice : nat -> bool.

Local Abbreviation create_state :=
  (create_state count_format_fields format_map choice).
Local Abbreviation append_scripted :=
  (append_scripted count_format_fields format_map choice).
Local Abbreviation post_transition_processing :=
  (post_transition_processing count_format_fields format_map choice).
Local Abbreviation __init__ :=
  (__init__ count_format_fields format_map choice).

(** A scripted message as it is appended: the role of the template and the
    stripped text of the template formatted with some variables. *)
Definition formatted_from (template message : Message) : Prop :=
  role message = role template
  /\ exists format_vars text,
       format_map (content template) format_vars = Ok text
       /\ content message = strip text.

(** The loop of [create_state] appends one message per scripted message, in
    order, after what the list already holds. *)
Lemma append_scripted_contents self state_name h messages fv w fv' w' old :
  append_scripted self state_name h messages fv w = (Ok fv', w') ->
  heap w !! h = Some old ->
  exists added,
    heap w' !! h = Some (old ++ added)%list
    /\ Forall2 formatted_from messages added.
Proof.
  revert fv w old. induction messages as [|message messages IH];
    intros fv w old Hrun Hold; simpl in Hrun.
  - injection Hrun as <- <-. exists []. by rewrite app_nil_r.
  - destruct (_ && _); [done|].
    pose proof (message_format_vars_heap choice self w) as Hh.
    destruct (message_format_vars choice self w) as [[fv1|e] w1];
      simpl in Hh; [|done].
    destruct (format_map (content message) fv1) as [text|e] eqn:Hfmt;
      [|done].
    set (m := {| role := role message; content := strip text |}) in *.
    destruct (IH fv1 (append h m w1) (old ++ [m])%list Hrun)
      as (added & Hadded & Hall).
    { rewrite append_contents, Hh, Hold. done. }
    exists (m :: added). split.
    + by rewrite Hadded, <- app_assoc.
    + constructor; [|done]. split; [done|]. by exists fv1, text.
Qed.

(** X13.  A call of [create_state] that returns has appended to the list it
    was given, after the messages already there and in scripted order, one
    message per scripted message of the state: the template's role with the
    stripped formatted content.  The returned state holds that same list (no
    copy) and the terminal flag, transitions and default of the state's
    definition. *)
Theorem create_state_appends_script (self : Env) (state_name : string)
    (t : Z) (h : loc) (w w' : World) (next : State)
    (old : list Message) :
  create_state self state_name t h w = (Ok next, w') ->
  heap w !! h = Some old ->
  exists def added,
    state_config self !! state_name = Some def
    /\ history next = h
    /\ heap w' !! h = Some (old ++ added)%list
    /\ Forall2 formatted_from (sd_history def) added
    /\ terminal next = sd_terminal def
    /\ valid_transitions next = sd_valid_transitions def
    /\ default_transition next = sd_default_transition def.
Proof.
  unfold Environment.create_state. intros Hrun Hold.
  destruct (state_config self !! state_name) as [def|]; [|done].
  destruct (append_scripted _ _ _ _ _ _) as [[fv|e] w1] eqn:Hloop; [|done].
  injection Hrun as <- <-.
  destruct (append_scripted_contents _ _ _ _ _ _ _ _ _ Hloop Hold)
    as (added & Hadded & Hall).
  exists def, added. simpl. done.
Qed.

(** The list a state is created on is the only one [create_state] writes
    to, whether it returns or raises. *)
Lemma create_state_heap_other self state_name t h w l :
  l <> h -> heap (create_state self state_name t h w).2 !! l = heap w !! l.
Proof.
  intros Hne. unfold Environment.create_state.
  destruct (state_config self !! state_name) as [def|]; [|done].
  pose proof (append_scripted_other count_format_fields format_map choice
                self state_name h (sd_history def) (env_format_vars self)
                w l Hne) as Hother.
  by destruct (append_scripted _ _ _ _ _ _) as [[fv|e] w1].
Qed.

(** X14.  [post_transition_processing] never changes a list that exists
    before the call: whether it returns a state or raises, every history in
    the store holds afterwards the messages it held before. *)
Theorem advance_keeps_existing_lists (self : Env) (state : State)
    (transition action : string) (w : World) (l : loc) :
  is_Some (heap w !! l) ->
  heap (post_transition_processing self state transition action w).2 !! l
  = heap w !! l.
Proof.
  intros Hl. unfold Environment.post_transition_processing.
  destruct (valid_transitions state !! _) as [target|]; [|done].
  destruct (deepcopy_other (history state) w l Hl) as [Hne Hsame].
  destruct (String.eqb (next_state target) (name state)).
  - exact Hsame.
  - simpl. rewrite create_state_heap_other by done. exact Hsame.
Qed.

(** *** Turn counts *)

Lemma append_scripted_visited self state_name h messages fv w :
  visited_states (append_scripted self state_name h messages fv w).2
  = visited_states w.
Proof.
  revert fv w. induction messages as [|m ms IH]; intros fv w; simpl;
    [done|].
  destruct (_ && _); [done|]. unfold message_format_vars.
  destruct (env_format_vars self !! "char_action1") as [a1|].
  - destruct (env_format_vars self !! "char_action2") as [a2|]; [|done].
    destruct (format_map _ _); [|done]. by rewrite IH.
  - destruct (format_map _ _); [|done]. by rewrite IH.
Qed.

Lemma create_state_fields self state_name t h w next w' :
  create_state self state_name t h w = (Ok next, w') ->
  name next = state_name /\ turns next = t /\ history next = h
  /\ visited_states w' = {[state_name]} ∪ visited_states w.
Proof.
  unfold Environment.create_state.
  destruct (state_config self !! state_name) as [def|]; [|done].
  pose proof (append_scripted_visited self state_name h (sd_history def)
                (env_format_vars self) w) as Hvis.
  destruct (append_scripted _ _ _ _ _ _) as [[fv|e] w1]; [|done].
  intros [= <- <-]. simpl in *. by rewrite Hvis.
Qed.

Lemma advance_turns self state transition action w next w' :
  post_transition_processing self state transition action w
  = (Ok next, w') ->
  turns next = turns state + 1.
Proof.
  unfold Environment.post_transition_processing.
  destruct (valid_transitions state !! _) as [target|]; [|done].
  destruct (String.eqb (next_state target) (name state)).
  - by intros [= <- <-].
  - simpl. intros Hc. by apply create_state_fields in Hc as (_ & -> & _).
Qed.

(** A conversation driven by a list of transition labels, one call of
    [post_transition_processing] per label, stopping at the first
    exception. *)
Fixpoint advance_all (self : Env) (state : State) (labels : list string)
    (w : World) : result State * World :=
  match labels with
  | [] => (Ok state, w)
  | label :: labels' =>
      match post_transition_processing self state label "" w with
      | (Ok next, w') => advance_all self next labels' w'
      | (Raise e, w') => (Raise e, w')
      end
  end.

(** X15.  After [n] successive transitions the turn count has grown by
    exactly [n], whatever the labels; so a conversation that started at
    turn 0 is terminal once [max_turns] transitions have been made. *)
Theorem advance_all_turns (self : Env) (state final : State)
    (labels : list string) (w w' : World) :
  advance_all self state labels w = (Ok final, w') ->
  turns final = turns state + Z.of_nat (length labels)
  /\ (max_turns self <= turns state + Z.of_nat (length labels) ->
      is_terminal self final = true).
Proof.
  intros Hrun.
  assert (turns final = turns state + Z.of_nat (length labels)) as Hturns.
  { revert state w Hrun.
    induction labels as [|label labels IH]; intros state w Hrun;
      simpl in Hrun.
    - injection Hrun as <- <-. simpl. lia.
    - destruct (post_transition_processing self state label "" w)
        as [[next|e] w1] eqn:Hstep; [|done].
      apply advance_turns in Hstep. rewrite (IH _ _ Hrun), Hstep.
      simpl length. lia. }
  split; [done|]. intros Hmax. unfold is_terminal.
  apply orb_true_iff. left. apply Z.leb_le. lia.
Qed.

(** X16.  The name of the current state is always among the visited
    states: if it is before a transition, then after a transition that
    returns, the new state's name is visited too, and no name is ever
    removed from the visited states, even when the transition raises. *)
Theorem advance_visited (self : Env) (state : State)
    (transition action : string) (w : World) :
  (forall name', name' ∈ visited_states w ->
     name' ∈ visited_states
               (post_transition_processing self state transition action
                                           w).2)
  /\ (forall next w',
        name state ∈ visited_states w ->
        post_transition_processing self state transition action w
        = (Ok next, w') ->
        name next ∈ visited_states w').
Proof.
  unfold Environment.post_transition_processing.
  destruct (valid_transitions state !! _) as [target|]; [|done].
  destruct (String.eqb (next_state target) (name state)).
  - split; [done|]. by intros next w' Hin [= <- <-].
  - simpl. split.
    + intros name' Hin. unfold Environment.create_state.
      destruct (state_config self !! next_state target) as [def|];
        [|done].
      pose proof (append_scripted_visited self (next_state target)
                    (fresh (dom (heap w))) (sd_history def)
                    (env_format_vars self)
                    (set_heap (<[fresh (dom (heap w)) :=
                                   default [] (heap w !! history state)]>
                                 (heap w)) w)) as Hvis.
      destruct (append_scripted _ _ _ _ _ _) as [[fv|e] w1];
        simpl in *; rewrite Hvis; [|done].
      apply elem_of_union. by right.
    + intros next w' _ Hc.
      apply create_state_fields in Hc as (-> & _ & _ & ->).
      apply elem_of_union. left. by apply elem_of_singleton.
Qed.

(** X17.  The constructor returns only for an initial state that is defined
    and whose scripted messages hold no format field.  The state it returns
    is the initial state at turn 0, it is the only visited state, and its
    history is the very list [initial_messages] that was passed in, now
    extended by the scripted messages. *)
Theorem init_initial_state (self : Env) (initial_messages : loc)
    (w w' : World) (state : State) (old : list Message) :
  __init__ self initial_messages w = (Ok state, w') ->
  heap w !! initial_messages = Some old ->
  exists def added,
    state_config self !! "initial_state" = Some def
    /\ Forall (fun m => count_format_fields (content m) = 0%nat)
              (sd_history def)
    /\ name state = "initial_state" /\ turns state = 0
    /\ visited_states w' = {["initial_state"]}
    /\ history state = initial_messages
    /\ heap w' !! initial_messages = Some (old ++ added)%list
    /\ length added = length (sd_history def).
Proof.
  unfold Environment.__init__. intros Hrun Hold.
  set (w0 := {| heap := heap w; visited_states := ∅; draws := draws w |})
    in *.
  destruct (create_state_fields _ _ _ _ _ _ _ Hrun)
    as (Hname & Hturns & Hhist & Hvis).
  unfold Environment.create_state in Hrun.
  destruct (state_config self !! "initial_state") as [def|]; [|done].
  destruct (append_scripted self "initial_state" initial_messages
              (sd_history def) (env_format_vars self) w0)
    as [[fv|e] w1] eqn:Hloop; [|done].
  destruct (append_scripted_contents _ _ _ _ _ _ _ _ old Hloop Hold)
    as (added & Hadded & Hall).
  assert (Forall (fun m => count_format_fields (content m) = 0%nat)
                 (sd_history def)) as Hfields.
  { clear -Hloop. revert Hloop.
    generalize (env_format_vars self) at 1. generalize w0.
    induction (sd_history def) as [|m ms IH]; intros w2 fv0 Hloop;
      [constructor|]. simpl in Hloop.
    destruct (Nat.eqb_spec (count_format_fields (content m)) 0)
      as [H0|]; simpl in Hloop; [|done].
    destruct (message_format_vars choice self w2) as [[fv1|e] w3];
      [|done].
    destruct (format_map (content m) fv1) as [text|e]; [|done].
    constructor; [done|]. by eapply IH. }
  injection Hrun as <- <-. exists def, added. simpl in *.
  split; [done|]. split; [done|]. split; [done|]. split; [done|].
  split; [by rewrite Hvis, union_empty_r_L|]. split; [done|].
  split; [done|]. symmetry. by eapply Forall2_length.
Qed.

(** *** The format variables of a created state *)

Lemma append_scripted_format_vars self state_name h messages fv w fv' w' :
  append_scripted self state_name h messages fv w = (Ok fv', w') ->
  match messages, env_format_vars self !! "char_action1" with
  | [], _ => fv' = fv /\ draws w' = draws w
  | _ :: _, None => fv' = env_format_vars self /\ draws w' = draws w
  | _ :: _, Some action1 =>
      exists action2,
        env_format_vars self !! "char_action2" = Some action2
        /\ draws w' = (draws w + length messages)%nat
        /\ fv' = <["char_action" :=
                     if choice (draws w + length messages - 1)%nat
                     then action2 else action1]> (env_format_vars self)
  end.
Proof.
  revert fv w. induction messages as [|m ms IH]; intros fv w Hrun;
    simpl in Hrun.
  - by injection Hrun as <- <-.
  - destruct (_ && _); [done|]. unfold message_format_vars in Hrun.
    destruct (env_format_vars self !! "char_action1") as [a1|] eqn:H1.
    + destruct (env_format_vars self !! "char_action2") as [a2|] eqn:H2;
        [|done].
      destruct (format_map _ _) as [text|e]; [|done].
      apply IH in Hrun. destruct ms as [|m' ms'].
      * destruct Hrun as [-> Hd]. exists a2. simpl in *.
        split; [done|]. split; [lia|].
        by replace (draws w + 1 - 1)%nat with (draws w) by lia.
      * try rewrite H1 in Hrun. destruct Hrun as (a2' & H2' & Hd & ->).
        simpl in *. exists a2'. split; [done|]. split; [lia|].
        match goal with
        | |- <[_ := if choice ?x then _ else _]> _
             = <[_ := if choice ?y then _ else _]> _ =>
            replace x with y by lia
        end. done.
    + destruct (format_map _ _) as [text|e]; [|done].
      apply IH in Hrun. destruct ms as [|m' ms'].
      * destruct Hrun as [-> Hd]. simpl in *. done.
      * try rewrite H1 in Hrun. simpl in *. done.
Qed.

(** X18.  The format variables of a created state are the environment's
    when the state scripts no message or the environment has no
    [char_action1].  Otherwise every scripted message takes one draw from
    the random generator, [char_action2] must exist, and the state keeps
    the environment's variables with [char_action] set to the alternative
    drawn for the last scripted message. *)
Theorem create_state_format_vars (self : Env) (state_name : string)
    (t : Z) (h : loc) (w w' : World) (next : State) (def : StateDef) :
  create_state self state_name t h w = (Ok next, w') ->
  state_config self !! state_name = Some def ->
  match sd_history def, env_format_vars self !! "char_action1" with
  | [], _ | _, None =>
      format_vars next = env_format_vars self /\ draws w' = draws w
  | _ :: _, Some action1 =>
      exists action2,
        env_format_vars self !! "char_action2" = Some action2
        /\ draws w' = (draws w + length (sd_history def))%nat
        /\ format_vars next
           = <["char_action" :=
                 if choice (draws w + length (sd_history def) - 1)%nat
                 then action2 else action1]> (env_format_vars self)
  end.
Proof.
  unfold Environment.create_state. intros Hrun Hdef. rewrite Hdef in Hrun.
  destruct (append_scripted _ _ _ _ _ _) as [[fv|e] w1] eqn:Hloop; [|done].
  injection Hrun as <- <-. simpl.
  apply append_scripted_format_vars in Hloop.
  destruct (sd_history def) as [|m ms]; [done|].
  by destruct (env_format_vars self !! "char_action1").
Qed.

End Methods.

(** *** The two-state conversation again *)

Definition demo_create (state_name : string) : result State * World :=
  create_state (fun _ => 0%nat) no_fields (fun _ => false)
    demo_env state_name 1 0%nat demo_world.

Lemma create_state_appends_witness :
  exists def added,
    state_config demo_env !! "terminal_state" = Some def
    /\ heap (demo_create "terminal_state").2 !! 0%nat
       = Some ([ {| role := "user"; content := "Hello" |} ] ++ added)%list
    /\ Forall2 (formatted_from no_fields) (sd_history def) added.
Proof.
  destruct (demo_create "terminal_state") as [[next|e] w'] eqn:Hrun;
    [|vm_compute in Hrun; discriminate].
  destruct (create_state_appends_script (fun _ => 0%nat) no_fields
              (fun _ => false) demo_env "terminal_state" 1 0%nat
              demo_world w' next
              [ {| role := "user"; content := "Hello" |} ] Hrun eq_refl)
    as (def & added & Hdef & _ & Hheap & Hall & _).
  exists def, added. done.
Defined.

Lemma advance_keeps_witness :
  heap (demo_advance "yes").2 !! 0%nat = heap demo_world !! 0%nat.
Proof.
  apply (advance_keeps_existing_lists (fun _ => 0%nat) no_fields
           (fun _ => false) demo_env demo_state "yes" "" demo_world 0%nat).
  vm_compute. eauto.
Defined.

Lemma advance_all_turns_witness :
  exists final w',
    advance_all (fun _ => 0%nat) no_fields (fun _ => false) demo_env
      demo_state ["no"; "maybe"; "yes"] demo_world = (Ok final, w')
    /\ turns final = 0 + 3.
Proof.
  destruct (advance_all (fun _ => 0%nat) no_fields (fun _ => false)
              demo_env demo_state ["no"; "maybe"; "yes"] demo_world)
    as [[final|e] w'] eqn:Hrun; [|vm_compute in Hrun; discriminate].
  exists final, w'. split; [reflexivity|].
  exact (proj1 (advance_all_turns (fun _ => 0%nat) no_fields
                  (fun _ => false) demo_env demo_state final
                  ["no"; "maybe"; "yes"] demo_world w' Hrun)).
Defined.

Lemma advance_visited_witness :
  "initial_state" ∈ visited_states (demo_advance "yes").2.
Proof.
  apply (proj1 (advance_visited (fun _ => 0%nat) no_fields
                  (fun _ => false) demo_env demo_state "yes" ""
                  demo_world)).
  vm_compute. reflexivity.
Defined.

Lemma init_initial_state_witness :
  exists state w',
    __init__ (fun _ => 0%nat) no_fields (fun _ => false) demo_env 0%nat
             demo_world = (Ok state, w')
    /\ history state = 0%nat /\ turns state = 0.
Proof.
  destruct (__init__ (fun _ => 0%nat) no_fields (fun _ => false) demo_env
              0%nat demo_world) as [[state|e] w'] eqn:Hrun;
    [|vm_compute in Hrun; discriminate].
  exists state, w'. split; [reflexivity|].
  destruct (init_initial_state (fun _ => 0%nat) no_fields (fun _ => false)
              demo_env 0%nat demo_world w' state
              [ {| role := "user"; content := "Hello" |} ] Hrun eq_refl)
    as (def & added & _ & _ & _ & Hturns & _ & Hhist & _).
  split; [exact Hhist | exact Hturns].
Defined.

(** An environment with the two alternative actions, and a state that
    scripts two messages. *)
Definition action_env : Env :=
  {| max_turns := 5;
     env_format_vars :=
       <["char_action1" := "stays"]> (<["char_action2" := "leaves"]> ∅);
     state_config :=
       <["action_state" :=
           {| sd_history := [ {| role := "system"; content := "first" |};
                              {| role := "system"; content := "second" |} ];
              sd_terminal := false;
              sd_valid_transitions := ∅;
              sd_default_transition := "no" |}]> ∅ |}.

Lemma create_state_format_vars_witness :
  exists next w',
    create_state (fun _ => 0%nat) no_fields (fun k => Nat.eqb k 1)
      action_env "action_state" 1 0%nat demo_world = (Ok next, w')
    /\ draws w' = 2%nat
    /\ format_vars next !! "char_action" = Some "leaves".
Proof.
  destruct (create_state (fun _ => 0%nat) no_fields (fun k => Nat.eqb k 1)
              action_env "action_state" 1 0%nat demo_world)
    as [[next|e] w'] eqn:Hrun; [|vm_compute in Hrun; discriminate].
  exists next, w'. split; [reflexivity|].
  pose proof (create_state_format_vars (fun _ => 0%nat) no_fields
                (fun k => Nat.eqb k 1) action_env "action_state" 1 0%nat
                demo_world w' next _ Hrun eq_refl) as Hfv.
  cbn in Hfv. destruct Hfv as (action2 & Ha2 & Hd & ->).
  vm_compute in Ha2. injection Ha2 as <-.
  split; [exact Hd|]. by rewrite lookup_insert_eq.
Defined.

End EnvironmentFacts.

(** ** More on the rate-limited client *)

Module OpenAIBackendFacts.
Import OpenAIBackend OpenAIBackendSpec.
Local Open Scope Q_scope.

(** *** Waiting for a budget *)

(** X19.  A request for more than the capacity of a bucket is never
    granted: whatever the clock does, the acquire loop keeps waiting. *)
Theorem acquire_above_capacity_waits (clock : list Q) (amount : Q)
    (self : Backend) :
  (max_requests_per_minute self < amount ->
   (_acquire_requests clock amount self).1 = false)
  /\ (max_tokens_per_minute self < amount ->
      (_acquire_tokens clock amount self).1 = false).
Proof.
  split; intros Hcap; revert self Hcap;
    induction clock as [|now clock IH]; intros self Hcap; simpl; try done.
  - destruct (Qle_bool amount _) eqn:Hle; [|by apply IH].
    apply Qle_bool_iff in Hle.
    pose proof (Q.le_min_l (max_requests_per_minute self)
                  (request_bucket self
                   + (now - last_refill_time_request self)
                     * (max_requests_per_minute self / 60))) as Hmin.
    simpl in Hle. lra.
  - destruct (Qle_bool amount _) eqn:Hle; [|by apply IH].
    apply Qle_bool_iff in Hle.
    pose proof (Q.le_min_l (max_tokens_per_minute self)
                  (token_bucket self
                   + (now - last_refill_time_token self)
                     * (max_tokens_per_minute self / 60))) as Hmin.
    simpl in Hle. lra.
Qed.

Lemma acquire_above_capacity_witness :
  (_acquire_tokens [1; 61; 121] 11 (init 5 10 0 "The answer is: ")).1
  = false.
Proof.
  apply (acquire_above_capacity_waits [1; 61; 121] 11
           (init 5 10 0 "The answer is: ")).
  reflexivity.
Defined.

(** What a second refill adds to a bucket. *)
Lemma refill_grows capacity remaining elapsed more :
  0 <= capacity -> 0 <= more ->
  Qmin capacity (Qmin capacity (remaining + elapsed * (capacity / 60))
                 + more * (capacity / 60))
  == Qmin capacity (remaining + (elapsed + more) * (capacity / 60)).
Proof.
  intros Hc Hm. set (c := capacity / 60).
  assert (0 <= c) as Hc60.
  { unfold c, Qdiv. apply Qmult_le_0_compat; [done | discriminate]. }
  assert (0 <= more * c) as Hmc by nra.
  destruct (Q.min_spec capacity (remaining + elapsed * c))
    as [[H1 ->]|[H1 ->]];
    destruct (Q.min_spec capacity (remaining + (elapsed + more) * c))
      as [[H2 ->]|[H2 ->]].
  - destruct (Q.min_spec capacity (capacity + more * c))
      as [[H3 ->]|[H3 ->]]; lra.
  - destruct (Q.min_spec capacity (capacity + more * c))
      as [[H3 ->]|[H3 ->]]; nra.
  - destruct (Q.min_spec capacity (remaining + elapsed * c + more * c))
      as [[H3 ->]|[H3 ->]]; nra.
  - destruct (Q.min_spec capacity (remaining + elapsed * c + more * c))
      as [[H3 ->]|[H3 ->]]; nra.
Qed.

(** X20.  Refilling twice, at [t1] and then at [t2], leaves the same bucket
    as refilling once at [t2]: what a refill adds depends only on the time
    since the last refill, not on how often the bucket was refilled in
    between. *)
Theorem refill_twice (t1 t2 : Q) (self : Backend) :
  0 <= max_requests_per_minute self -> 0 <= max_tokens_per_minute self ->
  t1 <= t2 ->
  request_bucket (_refill_request_bucket t2 (_refill_request_bucket t1 self))
  == request_bucket (_refill_request_bucket t2 self)
  /\ token_bucket (_refill_token_bucket t2 (_refill_token_bucket t1 self))
     == token_bucket (_refill_token_bucket t2 self)
  /\ last_refill_time_request
       (_refill_request_bucket t2 (_refill_request_bucket t1 self)) = t2
  /\ last_refill_time_token
       (_refill_token_bucket t2 (_refill_token_bucket t1 self)) = t2.
Proof.
  intros Hr Ht H12. simpl. split; [|split; [|done]].
  - rewrite refill_grows by lra.
    apply Q.min_compat; [reflexivity|].
    apply Qplus_comp; [reflexivity|]. apply Qmult_comp; [|reflexivity].
    ring.
  - rewrite refill_grows by lra.
    apply Q.min_compat; [reflexivity|].
    apply Qplus_comp; [reflexivity|]. apply Qmult_comp; [|reflexivity].
    ring.
Qed.

Lemma refill_twice_witness :
  request_bucket
    (_refill_request_bucket 30
       (_refill_request_bucket 10
          (_acquire_requests [0] 4 (init 5 10 0 "The answer is: ")).2))
  == request_bucket
       (_refill_request_bucket 30
          (_acquire_requests [0] 4 (init 5 10 0 "The answer is: ")).2).
Proof.
  apply (refill_twice 10 30
           (_acquire_requests [0] 4 (init 5 10 0 "The answer is: ")).2);
    discriminate.
Defined.

(** X21.  The two budgets are independent: refilling or acquiring requests
    leaves the token bucket and its refill time untouched, and refilling or
    acquiring tokens leaves the request bucket and its refill time
    untouched. *)
Theorem budgets_independent (clock : list Q) (amount : Q)
    (self : Backend) :
  (token_bucket (_acquire_requests clock amount self).2 = token_bucket self
   /\ last_refill_time_token (_acquire_requests clock amount self).2
      = last_refill_time_token self)
  /\ (request_bucket (_acquire_tokens clock amount self).2
      = request_bucket self
      /\ last_refill_time_request (_acquire_tokens clock amount self).2
         = last_refill_time_request self).
Proof.
  split; revert self; induction clock as [|now clock IH]; intros self;
    simpl; try done.
  - destruct (Qle_bool amount _); [done|].
    destruct (IH (_refill_request_bucket now self)) as [-> ->]. done.
  - destruct (Qle_bool amount _); [done|].
    destruct (IH (_refill_token_bucket now self)) as [-> ->]. done.
Qed.








(** The bucket after the refills of a list of clock readings. *)
Definition refill_requests_at (clock : list Q) (self : Backend) : Backend :=
  fold_left (fun self now => _refill_request_bucket now self) clock self.

Definition refill_tokens_at (clock : list Q) (self : Backend) : Backend :=
  fold_left (fun self now => _refill_token_bucket now self) clock self.

(** X23.  The acquire loop returns at the first clock reading at which the
    bucket, refilled at every reading so far, holds at least the amount,
    and it then holds that refilled bucket less exactly the amount.  As
    long as no reading is sufficient it has only refilled. *)
Theorem acquire_at_first_sufficient (clock : list Q) (amount : Q)
    (self : Backend) :
  (if (_acquire_requests clock amount self).1 then
     exists waited now rest,
       clock = (waited ++ now :: rest)%list
       /\ (forall k, (k < length waited)%nat ->
             ~ amount
               <= request_bucket
                    (refill_requests_at (take (S k) waited) self))
       /\ amount
          <= request_bucket (refill_requests_at (waited ++ [now]) self)
       /\ (_acquire_requests clock amount self).2
          = take_requests amount
              (refill_requests_at (waited ++ [now]) self)
   else
     (_acquire_requests clock amount self).2
     = refill_requests_at clock self
     /\ forall k, (k < length clock)%nat ->
          ~ amount
            <= request_bucket (refill_requests_at (take (S k) clock) self))
  /\ (if (_acquire_tokens clock amount self).1 then
       exists waited now rest,
         clock = (waited ++ now :: rest)%list
         /\ (forall k, (k < length waited)%nat ->
               ~ amount
                 <= token_bucket
                      (refill_tokens_at (take (S k) waited) self))
         /\ amount
            <= token_bucket (refill_tokens_at (waited ++ [now]) self)
         /\ (_acquire_tokens clock amount self).2
            = take_tokens amount (refill_tokens_at (waited ++ [now]) self)
     else
       (_acquire_tokens clock amount self).2 = refill_tokens_at clock self
       /\ forall k, (k < length clock)%nat ->
            ~ amount
              <= token_bucket (refill_tokens_at (take (S k) clock) self)).
Proof.
  split; revert self; induction clock as [|now clock IH]; intros self.
  - simpl. split; [done|]. intros k Hk. simpl in Hk. lia.
  - change (_acquire_requests (now :: clock) amount self)
      with (if Qle_bool amount
                 (request_bucket (_refill_request_bucket now self))
            then (true, take_requests amount
                          (_refill_request_bucket now self))
            else _acquire_requests clock amount
                   (_refill_request_bucket now self)).
    destruct (Qle_bool amount _) eqn:Hle.
    + exists [], now, clock. split; [done|]. split.
      * intros k Hk. simpl in Hk. lia.
      * split; [by apply Qle_bool_iff | done].
    + assert (~ amount
                <= request_bucket (_refill_request_bucket now self))
        as Hnot by (intros H%Qle_bool_iff; congruence).
      specialize (IH (_refill_request_bucket now self)).
      destruct (_acquire_requests clock amount _).1.
      * destruct IH as (waited & t & rest & -> & Hwait & Hsuff & Heq).
        exists (now :: waited), t, rest. split; [done|]. split.
        -- intros [|k] Hk; [done|]. apply Hwait. simpl in Hk. lia.
        -- done.
      * destruct IH as [Heq Hwait]. split; [done|].
        intros [|k] Hk; [done|]. apply Hwait. simpl in Hk. lia.
  - simpl. split; [done|]. intros k Hk. simpl in Hk. lia.
  - change (_acquire_tokens (now :: clock) amount self)
      with (if Qle_bool amount
                 (token_bucket (_refill_token_bucket now self))
            then (true, take_tokens amount (_refill_token_bucket now self))
            else _acquire_tokens clock amount
                   (_refill_token_bucket now self)).
    destruct (Qle_bool amount _) eqn:Hle.
    + exists [], now, clock. split; [done|]. split.
      * intros k Hk. simpl in Hk. lia.
      * split; [by apply Qle_bool_iff | done].
    + assert (~ amount <= token_bucket (_refill_token_bucket now self))
        as Hnot by (intros H%Qle_bool_iff; congruence).
      specialize (IH (_refill_token_bucket now self)).
      destruct (_acquire_tokens clock amount _).1.
      * destruct IH as (waited & t & rest & -> & Hwait & Hsuff & Heq).
        exists (now :: waited), t, rest. split; [done|]. split.
        -- intros [|k] Hk; [done|]. apply Hwait. simpl in Hk. lia.
        -- done.
      * destruct IH as [Heq Hwait]. split; [done|].
        intros [|k] Hk; [done|]. apply Hwait. simpl in Hk. lia.
Qed.

(** A bucket drained to 2 of 10 tokens per minute: 40 more seconds give
    back 6.5 tokens at second 39 and enough for 9 tokens at second 42. *)
Example acquire_waits_for_refill :
  let drained := (_acquire_tokens [0] 8 (init 5 10 0 "")).2 in
  (_acquire_tokens [39; 42; 50] 9 drained).1 = true
  /\ token_bucket (_acquire_tokens [39; 42; 50] 9 drained).2 == 0
  /\ last_refill_time_token (_acquire_tokens [39; 42; 50] 9 drained).2
     = 42.
Proof. vm_compute. repeat split; discriminate. Qed.

Lemma acquire_at_first_sufficient_witness :
  (_acquire_requests [1; 2] 7 (init 5 10 0 "")).2
  = refill_requests_at [1; 2] (init 5 10 0 "").
Proof.
  exact (proj1 (proj1 (acquire_at_first_sufficient [1; 2] 7
                         (init 5 10 0 "")))).
Defined.

(** *** Messages and retries *)

Lemma preprocess_messages_map messages :
  preprocess_messages messages = map preprocess_message messages.
Proof.
  unfold preprocess_messages.
  assert (forall out,
             fold_left (fun messages_out message =>
                          (messages_out ++ [preprocess_message message])%list)
                       messages out
             = (out ++ map preprocess_message messages)%list) as Hfold.
  { induction messages as [|m ms IH]; intros out; simpl.
    - by rewrite app_nil_r.
    - by rewrite IH, <- app_assoc. }
  apply Hfold.
Qed.

(** X24.  [preprocess_messages] returns one message per input message, in
    the same order and with the same content; the role is [system] for
    [system], [assistant] for [agent] and [user] for every other role, so
    the output holds no role but these three. *)
Theorem preprocess_messages_roles (messages : list Environment.Message) :
  length (preprocess_messages messages) = length messages
  /\ forall i message,
       messages !! i = Some message ->
       exists out,
         preprocess_messages messages !! i = Some out
         /\ Environment.content out = Environment.content message
         /\ Environment.role out
            = (if String.eqb (Environment.role message) "system"
               then "system"
               else if String.eqb (Environment.role message) "agent"
                    then "assistant" else "user")
         /\ (Environment.role out = "system"
             \/ Environment.role out = "assistant"
             \/ Environment.role out = "user").
Proof.
  rewrite preprocess_messages_map. split; [apply length_map|].
  intros i message Hi. exists (preprocess_message message).
  split; [by rewrite (list_lookup_fmap preprocess_message), Hi|].
  unfold preprocess_message.
  destruct (String.eqb (Environment.role message) "system");
    [simpl; auto|].
  destruct (String.eqb (Environment.role message) "agent"); simpl; auto.
Qed.

Lemma preprocess_messages_witness :
  exists out,
    preprocess_messages
      [ {| Environment.role := "agent"; Environment.content := "Hi" |} ]
      !! 0%nat = Some out
    /\ Environment.role out = "assistant".
Proof.
  destruct (proj2 (preprocess_messages_roles
                     [ {| Environment.role := "agent";
                          Environment.content := "Hi" |} ])
              0%nat _ eq_refl) as (out & Hout & _ & Hrole & _).
  exists out. split; [exact Hout | exact Hrole].
Defined.

Lemma retry_first_success {A} n (attempt : nat -> result A) first k a :
  (k < Nat.max 1 n)%nat ->
  (forall j, (j < k)%nat -> is_ok (attempt (first + j)%nat) = false) ->
  attempt (first + k)%nat = Ok a ->
  retry n attempt first = Returned a.
Proof.
  revert first k. induction n as [|n IH]; intros first k Hk Hfail Hok.
  - assert (k = 0%nat) as -> by lia. rewrite Nat.add_0_r in Hok.
    simpl. by rewrite Hok.
  - destruct k as [|k].
    + rewrite Nat.add_0_r in Hok. simpl. by rewrite Hok.
    + pose proof (Hfail 0%nat ltac:(lia)) as H0.
      rewrite Nat.add_0_r in H0. simpl.
      destruct (attempt first) as [?|e]; [done|].
      destruct n as [|n']; [lia|].
      apply (IH (S first) k); [lia | |].
      * intros j Hj. replace (S first + j)%nat with (first + S j)%nat
          by lia. apply Hfail. lia.
      * by replace (S first + k)%nat with (first + S k)%nat by lia.
Qed.

Lemma retry_exhausted {A} n (attempt : nat -> result A) first e :
  (forall j, (j < Nat.max 1 n - 1)%nat ->
             is_ok (attempt (first + j)%nat) = false) ->
  attempt (first + (Nat.max 1 n - 1))%nat = Raise e ->
  retry n attempt first = (RetryError e : retried A).
Proof.
  revert first. induction n as [|n IH]; intros first Hfail Hlast.
  - simpl in *. rewrite Nat.add_0_r in Hlast. by rewrite Hlast.
  - destruct n as [|n'].
    + simpl in *. rewrite Nat.add_0_r in Hlast. by rewrite Hlast.
    + pose proof (Hfail 0%nat ltac:(lia)) as H0.
      rewrite Nat.add_0_r in H0.
      change (retry (S (S n')) attempt first)
        with (match attempt first with
              | Ok a => Returned a
              | Raise _ => retry (S n') attempt (S first)
              end).
      destruct (attempt first) as [?|e0]; [done|].
      apply IH.
      * intros j Hj. replace (S first + j)%nat with (first + S j)%nat
          by lia. apply Hfail. lia.
      * replace (S first + (Nat.max 1 (S n') - 1))%nat
          with (first + (Nat.max 1 (S (S n')) - 1))%nat by lia. done.
Qed.

(** X25.  A call wrapped by [retry_decorator] returns the value of the
    first attempt that does not raise, provided it is among the first five
    attempts; when the first five attempts all raise, it ends with
    [RetryError] around the fifth exception and no sixth attempt is made,
    whatever a sixth attempt would do. *)
Theorem retry_decorator_attempts {A} (func : nat -> result A) :
  (forall k a,
      (k < 5)%nat ->
      (forall j, (j < k)%nat -> is_ok (func j) = false) ->
      func k = Ok a ->
      retry_decorator func = Returned a)
  /\ (forall e,
        (forall j, (j < 4)%nat -> is_ok (func j) = false) ->
        func 4%nat = Raise e ->
        retry_decorator func = RetryError e).
Proof.
  unfold retry_decorator, max_retries. split.
  - intros k a Hk Hfail Hok. apply (retry_first_success 5 func 0 k a);
      [simpl; lia | done | done].
  - intros e Hfail Hlast. apply (retry_exhausted 5 func 0 e); done.
Qed.

Lemma retry_decorator_witness :
  retry_decorator (fun k => if (k <? 5)%nat then Raise IndexError
                            else Ok "late")
  = RetryError IndexError.
Proof.
  apply (proj2 (retry_decorator_attempts
                  (fun k => if (k <? 5)%nat then Raise IndexError
                            else Ok "late"))).
  - intros j Hj. destruct (Nat.ltb_spec j 5); [done | lia].
  - reflexivity.
Defined.

(** *** The probabilities of the top tokens *)

Section TopTokens.
Variable exp : Q -> Q.

(** The key a top token is counted under. *)
Definition token_key (entry : TopLogprob) : string :=
  strip (lower (top_token entry)).

(** The probability mass the [entries] give to [key]. *)
Fixpoint mass_of (key : string) (entries : list TopLogprob) : Q :=
  match entries with
  | [] => 0
  | entry :: entries' =>
      if decide (token_key entry = key)
      then mass_of key entries' + exp (logprob entry)
      else mass_of key entries'
  end.

(** One step of the loop, on the entry itself. *)
Definition add_entry (tokens : gmap string Q) (entry : TopLogprob)
  : gmap string Q :=
  <[token_key entry :=
      prob_of tokens (token_key entry) + exp (logprob entry)]> tokens.

Lemma top_five_probs_fold top_logprobs :
  (5 <= length top_logprobs)%nat ->
  top_five_probs exp top_logprobs
  = Ok (fold_left add_entry (take 5 top_logprobs) ∅).
Proof.
  intros Hlen.
  destruct top_logprobs as [|a [|b [|c [|d [|e rest]]]]];
    try (simpl in Hlen; lia).
  reflexivity.
Qed.

Lemma add_entries_mass entries (tokens : gmap string Q) key :
  prob_of (fold_left add_entry entries tokens) key
  == prob_of tokens key + mass_of key (rev entries)
  /\ (is_Some (fold_left add_entry entries tokens !! key)
      <-> is_Some (tokens !! key)
          \/ exists entry, entry ∈ entries /\ token_key entry = key).
Proof.
  revert tokens. induction entries as [|entry entries IH] using rev_ind;
    intros tokens.
  - simpl. split; [lra|]. split; [by left|].
    intros [?|(e & He & _)]; [done|]. by apply elem_of_nil in He.
  - rewrite fold_left_app, rev_app_distr. simpl.
    destruct (IH tokens) as [Hmass Hdom]. unfold add_entry at 1 3.
    destruct (decide (token_key entry = key)) as [<-|Hne].
    + split.
      * unfold prob_of at 1. rewrite lookup_insert_eq. simpl.
        rewrite Hmass. lra.
      * rewrite lookup_insert_eq. split; [|by eauto].
        intros _. right. exists entry. split; [|done].
        apply elem_of_app. right. by apply list_elem_of_singleton.
    + split.
      * unfold prob_of at 1. rewrite lookup_insert_ne by done.
        exact Hmass.
      * rewrite lookup_insert_ne by done. rewrite Hdom.
        split; (intros [?|(e & He & Hk)]; [by left|]); right; exists e.
        -- split; [|done]. apply elem_of_app. by left.
        -- split; [|done]. apply elem_of_app in He as [?|He]; [done|].
           apply list_elem_of_singleton in He as ->. done.
Qed.

Lemma mass_of_perm key entries1 entries2 :
  entries1 ≡ₚ entries2 -> mass_of key entries1 == mass_of key entries2.
Proof.
  induction 1 as [|x l1 l2 _ IH|x y l|l1 l2 l3 _ IH1 _ IH2]; simpl.
  - reflexivity.
  - destruct (decide _); rewrite IH; reflexivity.
  - destruct (decide _); destruct (decide _); lra.
  - by rewrite IH1.
Qed.

(** X26.  With at least five entries at the answer position, the dict of
    token probabilities has exactly the keys that are the lower-cased,
    stripped form of one of the first five top tokens, and the value of a
    key is the sum of [exp(logprob)] over the first five entries that fall
    on that key: tokens that differ only in case or surrounding white space
    are merged and no mass is lost. *)
Theorem top_five_probs_mass (top_logprobs : list TopLogprob) :
  (5 <= length top_logprobs)%nat ->
  exists tokens,
    top_five_probs exp top_logprobs = Ok tokens
    /\ (forall key,
          is_Some (tokens !! key)
          <-> exists entry, entry ∈ take 5 top_logprobs
                            /\ token_key entry = key)
    /\ (forall key,
          prob_of tokens key == mass_of key (take 5 top_logprobs)).
Proof.
  intros Hlen. eexists. split; [by apply top_five_probs_fold|]. split.
  - intros key.
    destruct (add_entries_mass (take 5 top_logprobs) ∅ key) as [_ ->].
    rewrite lookup_empty. split; [|by right].
    intros [[? ?]|?]; done.
  - intros key.
    destruct (add_entries_mass (take 5 top_logprobs) ∅ key) as [Hmass _].
    pose proof (mass_of_perm key (rev (take 5 top_logprobs))
                  (take 5 top_logprobs)
                  (Permutation_sym (Permutation_rev _))) as Hperm.
    unfold prob_of at 2 in Hmass. rewrite lookup_empty in Hmass.
    simpl in Hmass. lra.
Qed.

End TopTokens.

Lemma top_five_probs_mass_witness :
  exists tokens,
    top_five_probs (fun _ => 1 # 5) five_entries = Ok tokens
    /\ prob_of tokens "2"
       == mass_of (fun _ => 1 # 5) "2" (take 5 five_entries).
Proof.
  destruct (top_five_probs_mass (fun _ => 1 # 5) five_entries)
    as (tokens & Hrun & _ & Hmass).
  - simpl. lia.
  - exists tokens. split; [exact Hrun | apply Hmass].
Defined.

(** *** The normalised distribution *)

Lemma entry_le_sum (d : gmap string Q) :
  (forall k v, d !! k = Some v -> 0 <= v) ->
  0 <= sum_values d /\ forall k v, d !! k = Some v -> v <= sum_values d.
Proof.
  unfold sum_values.
  apply (map_fold_weak_ind
           (fun r (m : gmap string Q) =>
              (forall k v, m !! k = Some v -> 0 <= v) ->
              0 <= r /\ forall k v, m !! k = Some v -> v <= r)).
  - split; [lra|]. intros k v Hk. by rewrite lookup_empty in Hk.
  - intros k v m r Hk IH Hall.
    assert (0 <= v) as Hv by (apply (Hall k), lookup_insert_eq).
    destruct IH as [Hr Hle].
    { intros k' v' Hk'. apply (Hall k').
      rewrite lookup_insert_ne; [done|]. intros ->. congruence. }
    split; [lra|]. intros k' v' Hk'.
    destruct (decide (k = k')) as [->|Hne].
    + rewrite lookup_insert_eq in Hk'. injection Hk' as <-. lra.
    + rewrite lookup_insert_ne in Hk' by done.
      specialize (Hle k' v' Hk'). lra.
Qed.

(** X27.  When no token probability is negative, every probability of the
    normalised distribution lies between 0 and 1. *)
Theorem normalize_bounds (token_probs : gmap string Q)
    (valid_tokens : list string) :
  (forall k v, token_probs !! k = Some v -> 0 <= v) ->
  forall k p,
    normalize token_probs valid_tokens !! k = Some p -> 0 <= p <= 1.
Proof.
  intros Hnonneg k p.
  assert (forall k v, valid_probs token_probs valid_tokens !! k = Some v ->
                      0 <= v) as Hvalid.
  { intros k' v'. rewrite valid_probs_lookup.
    destruct (decide _); [|done]. intros [= <-]. unfold prob_of.
    destruct (token_probs !! k') as [v|] eqn:Hv; simpl;
      [by eapply Hnonneg | lra]. }
  destruct (entry_le_sum _ Hvalid) as [Hsum Hle].
  unfold normalize.
  destruct (Qlt_le_dec 0 (sum_values (valid_probs token_probs
                                        valid_tokens))) as [Hpos|Hzero].
  - rewrite lookup_fmap.
    destruct (valid_probs token_probs valid_tokens !! k) as [v|] eqn:Hv;
      [|done].
    intros [= <-]. specialize (Hvalid k v Hv). specialize (Hle k v Hv).
    split.
    + apply Qle_shift_div_l; [done|]. lra.
    + apply Qle_shift_div_r; [done|]. lra.
  - intros Hp. specialize (Hvalid k p Hp). specialize (Hle k p Hp). lra.
Qed.

Lemma normalize_bounds_witness :
  exists p,
    normalize example_token_probs ["1"; "2"; "3"] !! "2" = Some p
    /\ 0 <= p <= 1.
Proof.
  destruct (normalize example_token_probs ["1"; "2"; "3"] !! "2")
    as [p|] eqn:Hp; [|vm_compute in Hp; discriminate].
  exists p. split; [reflexivity|].
  apply (normalize_bounds example_token_probs ["1"; "2"; "3"]) with "2";
    [|exact Hp].
  intros k v Hk.
  destruct (decide (k = "2")) as [->|]; [by injection Hk as <-|].
  destruct (decide (k = "3")) as [->|]; [by injection Hk as <-|].
  destruct (decide (k = "x")) as [->|]; [by injection Hk as <-|].
  unfold example_token_probs in Hk.
  rewrite !lookup_insert_ne, lookup_empty in Hk by done. done.
Defined.

(** *** The answer position *)

Lemma find_final_answer_index_cases final_string tokens prefix index :
  (find_final_answer_index final_string tokens prefix index = (-1)%Z
   /\ forall k, (1 <= k <= length tokens)%nat ->
                endswith (prefix +:+ join (take k tokens)) final_string
                = false)
  \/ exists k,
       (1 <= k <= length tokens)%nat
       /\ find_final_answer_index final_string tokens prefix index
          = (index + Z.of_nat k)%Z
       /\ endswith (prefix +:+ join (take k tokens)) final_string = true
       /\ forall j, (1 <= j < k)%nat ->
                    endswith (prefix +:+ join (take j tokens)) final_string
                    = false.
Proof.
  revert prefix index.
  induction tokens as [|tok tokens IH]; intros prefix index.
  - left. split; [done|]. intros k Hk. simpl in Hk. lia.
  - simpl. destruct (endswith (prefix +:+ tok) final_string) eqn:Hhit.
    + right. exists 1%nat. split; [simpl; lia|]. split; [lia|]. split.
      * rewrite join_take_S. simpl. by rewrite append_empty_r.
      * intros j Hj. lia.
    + assert (forall k, prefix +:+ join (take (S k) (tok :: tokens))
                        = (prefix +:+ tok) +:+ join (take k tokens))
        as Hshift by (intros k; apply join_take_S).
      destruct (IH (prefix +:+ tok) (index + 1)%Z)
        as [[Hnone Hall]|(k & Hk & Hfound & Hyes & Hbefore)].
      * left. split; [done|]. intros [|k] Hk; [lia|].
        rewrite Hshift. destruct k as [|k].
        -- simpl. by rewrite append_empty_r.
        -- apply Hall. simpl in Hk. lia.
      * right. exists (S k). split; [simpl; lia|]. split; [lia|].
        split; [by rewrite Hshift|].
        intros [|j] Hj; [lia|]. rewrite Hshift. destruct j as [|j].
        -- simpl. by rewrite append_empty_r.
        -- apply Hbefore. lia.
Qed.

(** X28.  The scan for the final string returns [-1] exactly when no token
    boundary of the response ends with the final string; otherwise it
    returns the number [k] of tokens up to the first such boundary, an
    index between 1 and the number of tokens: the answer is the token right
    after the first occurrence. *)
Theorem find_final_answer_index_first_boundary (final_string : string)
    (tokens : list string) :
  let found := find_final_answer_index final_string tokens "" 0 in
  (found = (-1)%Z
   /\ forall k, (1 <= k <= length tokens)%nat ->
                ends_at final_string tokens k = false)
  \/ exists k,
       (1 <= k <= length tokens)%nat
       /\ found = Z.of_nat k
       /\ ends_at final_string tokens k = true
       /\ forall j, (1 <= j < k)%nat ->
                    ends_at final_string tokens j = false.
Proof.
  destruct (find_final_answer_index_cases final_string tokens "" 0)
    as [[Hnone Hall]|(k & Hk & Hfound & Hyes & Hbefore)].
  - left. split; [done|]. exact Hall.
  - right. exists k. split; [done|]. split; [by rewrite Hfound|].
    split; [exact Hyes | exact Hbefore].
Qed.

Lemma find_final_answer_index_witness :
  ends_at "is: " ["The"; " answer"; " is: "; "2"] 3 = true
  /\ find_final_answer_index "is: " ["The"; " answer"; " is: "; "2"] "" 0
     = 3%Z.
Proof.
  destruct (find_final_answer_index_first_boundary "is: "
              ["The"; " answer"; " is: "; "2"])
    as [[Hnone _]|(k & Hk & Hfound & Hyes & _)].
  - vm_compute in Hnone. discriminate.
  - assert (find_final_answer_index "is: "
              ["The"; " answer"; " is: "; "2"] "" 0 = 3%Z) as H3
      by reflexivity.
    rewrite H3 in Hfound.
    assert (k = 3%nat) as -> by lia. split; [exact Hyes | reflexivity].
Defined.

(** *** What the scoring returns *)

(** An answer position that reaches the bounds test is never negative: it is
    0 without the chain of thought, and the token after a boundary with
    it. *)
Lemma locate_final_answer_index (self : Backend) (response : ChatCompletion)
    (use_chain_of_thought : bool) (idx : Z) (text : string) :
  locate_final_answer self response use_chain_of_thought = inr (idx, text) ->
  (0 <= idx)%Z
  /\ text = (if use_chain_of_thought then message_content response else "").
Proof.
  unfold locate_final_answer. destruct use_chain_of_thought.
  - destruct (negb _); [done|].
    destruct (find_final_answer_index_cases
                (chain_of_thought_final_string self)
                (map token (logprobs_content response)) "" 0)
      as [[-> _]|(k & Hk & -> & _)]; [done|].
    destruct (_ =? _)%Z; [done|]. intros [= <- <-]. split; [lia | done].
  - intros [= <- <-]. done.
Qed.

(** The answer position at which the five top log-probabilities are read:
    the index that passed the bounds test, and the entry of the response
    there. *)
Definition answer_position (self : Backend) (response : ChatCompletion)
    (use_chain_of_thought : bool) (idx : Z) (answer : TokenLogprob) : Prop :=
  (exists text,
      locate_final_answer self response use_chain_of_thought
      = inr (idx, text))
  /\ (0 <= idx < Z.of_nat (length (logprobs_content response)))%Z
  /\ logprobs_content response !! Z.to_nat idx = Some answer.

(** X29.  On a response whose message content is a string and whose
    log-probabilities are a list, the scoring raises exactly when there is
    an answer position and its entry has fewer than five top
    log-probabilities, and the exception is then [IndexError].  In every
    other case it returns: the distribution is a dict over exactly the valid
    tokens, the text next to it is the raw response with the chain of
    thought enabled and the empty string without it, and the entry of the
    answer position, if there is one, has at least five top
    log-probabilities. *)
Theorem scoring_result (exp : Q -> Q) (self : Backend)
    (response : ChatCompletion) (valid_tokens : list string)
    (use_chain_of_thought : bool) :
  match _async_get_next_token_probs_normalized exp self response
          valid_tokens use_chain_of_thought with
  | Ok (distribution, chain_of_thought) =>
      (forall k, is_Some (distribution !! k) <-> k ∈ valid_tokens)
      /\ chain_of_thought
         = (if use_chain_of_thought then message_content response else "")
      /\ (forall idx answer,
             answer_position self response use_chain_of_thought idx answer ->
             (5 <= length (top_logprobs answer))%nat)
  | Raise e =>
      e = IndexError
      /\ exists idx answer,
           answer_position self response use_chain_of_thought idx answer
           /\ (length (top_logprobs answer) < 5)%nat
  end.
Proof.
  assert (forall token_probs k,
             is_Some (normalize token_probs valid_tokens !! k)
             <-> k ∈ valid_tokens) as Hdom.
  { intros token_probs k.
    pose proof (normalize_lookup token_probs valid_tokens k) as Hl.
    simpl in Hl. rewrite Hl. destruct (decide (k ∈ valid_tokens));
      [by eauto | split; [by intros [? ?] | done]]. }
  unfold _async_get_next_token_probs_normalized,
    get_token_probs_and_chain_of_thought, answer_position.
  pose proof (locate_final_answer_index self response use_chain_of_thought)
    as Hloc.
  destruct (locate_final_answer self response use_chain_of_thought)
    as [[early text]|[idx text]] eqn:Hfound.
  - (* an early return: there is no answer position *)
    assert (text = (if use_chain_of_thought
                    then message_content response else "")) as Htext.
    { revert Hfound. unfold locate_final_answer.
      destruct use_chain_of_thought; [|done].
      destruct (negb _); [by intros [= _ <-]|].
      destruct (_ =? _)%Z; [by intros [= _ <-] | done]. }
    simpl. split; [apply Hdom|]. split; [done|].
    intros idx answer ([text' Hinr] & _). done.
  - destruct (Hloc idx text eq_refl) as [Hidx Htext].
    destruct (Z.leb_spec (Z.of_nat (length (logprobs_content response)))
                idx) as [Hout|Hin]; simpl.
    + (* the answer position is past the last token *)
      split; [apply Hdom|]. split; [done|].
      intros idx' answer ([text' Hinr] & Hrange & _).
      injection Hinr as <- _. lia.
    + unfold item.
      destruct (logprobs_content response !! Z.to_nat idx)
        as [answer|] eqn:Hanswer; simpl.
      * destruct (le_lt_dec 5 (length (top_logprobs answer)))
          as [Hlen|Hlen].
        -- rewrite (top_five_probs_fold exp _ Hlen). simpl.
           split; [apply Hdom|]. split; [done|].
           intros idx' answer' ([text' Hinr] & _ & Hanswer').
           injection Hinr as <- _. congruence.
        -- rewrite (top_five_probs_short exp _ Hlen). simpl.
           split; [done|]. exists idx, answer. split; [|done].
           split; [by exists text|]. split; [lia | done].
      * apply lookup_ge_None in Hanswer. lia.
Qed.

(** Both ends on two responses of one token: five candidates give the
    distribution, two candidates give the [IndexError]. *)
Example scoring_result_five :
  is_ok (_async_get_next_token_probs_normalized (fun _ => 1 # 5)
           example_backend
           {| message_content := "2";
              logprobs_content :=
                [{| token := "2"; top_logprobs := five_entries |}] |}
           ["1"; "2"; "3"] false) = true.
Proof. vm_compute. reflexivity. Qed.

Example scoring_result_two :
  _async_get_next_token_probs_normalized (fun _ => 1 # 5) example_backend
    {| message_content := "2";
       logprobs_content :=
         [{| token := "2"; top_logprobs := take 2 five_entries |}] |}
    ["1"; "2"; "3"] false
  = Raise IndexError.
Proof. vm_compute. reflexivity. Qed.

End OpenAIBackendFacts.
